(** * Verification of the TLS record fragmentation writer and of the
      Shadowsocks prefix parser of outline-sdk

    Sources embedded here:
    - [transport/tls-record-frag/writer.go]: [NewWriter], [dontFrag],
      [ReadFrom], [Write];
    - [x/config/shadowsocks.go]: [parseStringPrefix], [parseShadowsocksURL].

    Go's fixed-width integers are integers of [Z] with the wrap-around
    written out, byte slices are lists of [Byte.byte], a run-time panic is
    an explicit outcome, and the underlying [io.Writer] is a state machine
    whose calls are logged. *)

From Stdlib Require Import ZArith Lia List.
From Stdlib.Strings Require Import Byte.
From stdpp Require Import base tactics option list numbers.

Local Open Scope Z_scope.

(** ** Go's integers and bytes *)

Module GoInt.

(** Conversion to a signed integer type of [bits] bits. *)
Definition wrap (bits : Z) (z : Z) : Z :=
  (z + 2 ^ (bits - 1)) mod 2 ^ bits - 2 ^ (bits - 1).

Definition int32 (z : Z) : Z := wrap 32 z.
Definition int64 (z : Z) : Z := wrap 64 z.
Definition uint16 (z : Z) : Z := z mod 65536.

(** [byte(x)]: the low eight bits. *)
Definition byte_of (z : Z) : byte :=
  default Byte.x00 (Byte.of_N (Z.to_N (z mod 256))).

Definition byte_val (b : byte) : Z := Z.of_N (Byte.to_N b).

(** [len(s)] as an integer. *)
Definition len {A} (l : list A) : Z := Z.of_nat (length l).

End GoInt.
Import GoInt.

(** ** Panics *)

Inductive panic_reason : Type :=
  | SliceBounds      (* slice bounds out of range *)
  | IndexOutOfRange  (* index out of range *)
  | MakeSliceLen.    (* makeslice: len out of range *)

Inductive outcome (A : Type) : Type :=
  | Ret (a : A)
  | Panic (r : panic_reason).
Arguments Ret {A} a.
Arguments Panic {A} r.

#[global] Instance outcome_ret : MRet outcome := @Ret.
#[global] Instance outcome_bind : MBind outcome := λ A B f m,
  match m with
  | Ret a => f a
  | Panic r => Panic r
  end.

(** ** Slices

    Bounds are checked against the length. (Go checks the upper bound of a
    slice expression against the capacity. The one slice expression of the
    writer whose upper bound can exceed the length, [remainder[:prefixBytes]]
    in [Write], is followed by [remainder[prefixBytes:recordLength]], whose
    lower bound then exceeds its upper bound: the call panics either way.) *)

Module GoSlice.

(** [s[lo:]] *)
Definition slice_from {A} (s : list A) (lo : Z) : outcome (list A) :=
  if decide (0 ≤ lo ≤ len s) then Ret (drop (Z.to_nat lo) s)
  else Panic SliceBounds.

(** [s[:hi]] *)
Definition slice_to {A} (s : list A) (hi : Z) : outcome (list A) :=
  if decide (0 ≤ hi ≤ len s) then Ret (take (Z.to_nat hi) s)
  else Panic SliceBounds.

(** [s[lo:hi]] *)
Definition slice {A} (s : list A) (lo hi : Z) : outcome (list A) :=
  if decide (0 ≤ lo ≤ hi ∧ hi ≤ len s)
  then Ret (take (Z.to_nat (hi - lo)) (drop (Z.to_nat lo) s))
  else Panic SliceBounds.

(** [s[i]] *)
Definition index {A} (s : list A) (i : Z) : outcome A :=
  if decide (0 ≤ i) then
    match s !! Z.to_nat i with
    | Some x => Ret x
    | None => Panic IndexOutOfRange
    end
  else Panic IndexOutOfRange.

(** [make([]byte, n)] *)
Definition make (n : Z) : outcome (list byte) :=
  if decide (0 ≤ n) then Ret (replicate (Z.to_nat n) Byte.x00)
  else Panic MakeSliceLen.

(** [copy(dst[off:], src)]: the slice expression is checked, then
    [min(len(dst) - off, len(src))] bytes are overwritten in place. *)
Definition copy_at (dst : list byte) (off : Z) (src : list byte)
  : outcome (list byte) :=
  if decide (0 ≤ off ≤ len dst)
  then Ret (list_inserts (Z.to_nat off) src dst)
  else Panic SliceBounds.

End GoSlice.
Import GoSlice.

(** ** encoding/binary, big endian *)

Module binary.

(** [binary.BigEndian.Uint16(b)] *)
Definition Uint16 (b : list byte) : outcome Z :=
  match b with
  | b0 :: b1 :: _ => Ret (Z.lor (Z.shiftl (byte_val b0) 8) (byte_val b1))
  | _ => Panic IndexOutOfRange
  end.

(** [binary.BigEndian.PutUint16(dst[off:], v)] *)
Definition PutUint16_at (dst : list byte) (off : Z) (v : Z)
  : outcome (list byte) :=
  if decide (0 ≤ off ≤ len dst) then
    if decide (2 ≤ len dst - off)
    then Ret (list_inserts (Z.to_nat off)
                [byte_of (Z.shiftr v 8); byte_of v] dst)
    else Panic IndexOutOfRange
  else Panic SliceBounds.

End binary.

(** ** Package io: writers, readers, [ReadFull], [Copy] *)

Module io.

Inductive error : Type :=
  | EOF
  | ErrUnexpectedEOF
  | ErrShortWrite
  | errInvalidWrite
  | Err (code : nat).   (* any other error of a reader or a writer *)

#[global] Instance error_eq_dec : EqDecision error.
Proof. solve_decision. Defined.

(** The [io.Writer] interface: one call takes the bytes and answers with
    a count and an error; the writer's own state moves on. *)
Class Writer (W : Type) := Write : W → list byte → Z * option error * W.

(** A writer that keeps the list of the buffers it was handed. *)
Record Logged (W : Type) := mkLogged {
  inner : W;
  delivered : list (list byte)
}.
Arguments mkLogged {W} _ _.
Arguments inner {W} _.
Arguments delivered {W} _.

#[global] Instance Logged_Writer {W} `{!Writer W} : Writer (Logged W) :=
  λ s p,
    let '(n, err, s') := Write (inner s) p in
    (n, err, mkLogged s' (delivered s ++ [p])).

(** An [io.Reader] that ends: the chunks its successive [Read] calls hand
    out when the buffer is large enough (a smaller buffer takes the front
    of the chunk and leaves the rest for the next call), and the error it
    reports, at every later call, once they are used up ([EOF] for a clean
    end). *)
Record Source := mkSource {
  chunks : list (list byte);
  final : error
}.

(** Every byte the source still holds. *)
Definition remaining (r : Source) : list byte := concat (chunks r).

(** [r.Read(p)] with [len(p) = k]. *)
Definition Read (r : Source) (k : nat) : list byte * option error * Source :=
  match k with
  | O => ([], None, r)
  | _ =>
    match chunks r with
    | [] => ([], Some (final r), r)
    | c :: cs =>
      if decide (length c ≤ k)%nat then (c, None, mkSource cs (final r))
      else (take k c, None, mkSource (drop k c :: cs) (final r))
    end
  end.

(** The loop of [io.ReadAtLeast]: [for n < min && err == nil]. *)
Fixpoint ReadAtLeast_loop (fuel : nat) (r : Source) (min : nat)
    (got : list byte) : list byte * option error * Source :=
  match fuel with
  | O => (got, None, r)
  | S fuel =>
    if decide (length got < min)%nat then
      let '(p, err, r) := Read r (min - length got) in
      let got := got ++ p in
      match err with
      | None => ReadAtLeast_loop fuel r min got
      | Some e => (got, Some e, r)
      end
    else (got, None, r)
  end.

(** [io.ReadFull(r, buf)] with [len(buf) = n]: the bytes stored in [buf],
    the error, the reader afterwards. Every turn of the loop but the last
    uses up a chunk, so the fuel is never exhausted
    ([ReadAtLeast_loop_spec]). *)
Definition ReadFull (r : Source) (n : nat)
  : list byte * option error * Source :=
  let '(got, err, r') := ReadAtLeast_loop (S (length (chunks r))) r n [] in
  let err :=
    if decide (n ≤ length got)%nat then None
    else if decide ((0 < length got)%nat ∧ err = Some EOF)
         then Some ErrUnexpectedEOF
         else err in
  (got, err, r').

Definition copyBufferSize : nat := 32 * 1024.

(** The loop of [io.Copy], on its generic path (the shortcuts through
    [WriterTo] and [ReaderFrom] depend on the dynamic types of the two
    ends): a buffer of 32 KiB, one [Write] for each [Read] that brought
    bytes, until the first error. *)
Fixpoint copy_loop {W} `{!Writer W} (fuel : nat) (dst : W) (src : Source)
    (written : Z) : Z * option error * W * Source :=
  match fuel with
  | O => (written, None, dst, src)
  | S fuel =>
    let '(p, er, src) := Read src copyBufferSize in
    let after_write dst written :=
      match er with
      | Some e => (written, if decide (e = EOF) then None else Some e, dst, src)
      | None => copy_loop fuel dst src written
      end in
    let nr := len p in
    if decide (0 < nr) then
      let '(nw, ew, dst) := Write dst p in
      let '(nw, ew) :=
        if decide (nw < 0 ∨ nr < nw)
        then (0, Some (default errInvalidWrite ew))
        else (nw, ew) in
      let written := int64 (written + int64 nw) in
      match ew with
      | Some e => (written, Some e, dst, src)
      | None =>
        if decide (nr ≠ nw) then (written, Some ErrShortWrite, dst, src)
        else after_write dst written
      end
    else after_write dst written
  end.

(** Each [Read] of the loop removes a byte or a chunk. *)
Definition weight (r : Source) : nat :=
  S (length (chunks r) + length (remaining r)).

(** [io.Copy(dst, src)]. The fuel is enough ([copy_loop_fuel]). *)
Definition Copy {W} `{!Writer W} (dst : W) (src : Source)
  : Z * option error * W * Source :=
  copy_loop (weight src) dst src 0.

(** The error of a [ReadFull] that ran out of bytes after [got], on a
    reader that ends with [e]. *)
Definition short_read_error (e : error) (got : list byte) : error :=
  if decide ((0 < length got)%nat ∧ e = EOF) then ErrUnexpectedEOF else e.

(** The error [Copy] reports for a reader that ended with [e]. *)
Definition copy_error (e : error) : option error :=
  if decide (e = EOF) then None else Some e.

(** A sink that takes every buffer whole and without error. *)
Definition accepts_all (W : Type) `{!Writer W} : Prop :=
  ∀ (s : W) (p : list byte), ∃ s', Write s p = (len p, None, s').

End io.

(** ** Package tlsrecordfrag *)

Module tlsrecordfrag.
Import binary.

Record tlsRecordFragWriter (W : Type) := mkWriter {
  writer : W;
  prefixBytes : Z   (* int32 *)
}.
Arguments mkWriter {W} _ _.
Arguments writer {W} _.
Arguments prefixBytes {W} _.

(** For the fragments, not for the reassembled record. *)
Definition maxRecordLength : Z := Z.shiftl 1 14.
Definition typeHandshake : Z := 22.

Definition NewWriter {W} (writer : W) (prefixBytes : Z)
  : tlsRecordFragWriter W := mkWriter writer prefixBytes.

Section Methods.
Context {W : Type} `{!io.Writer W}.

(** [tmp, err := w.writer.Write(p)], the writer's state updated. *)
Definition writer_Write (w : tlsRecordFragWriter W) (p : list byte)
  : Z * option io.error * tlsRecordFragWriter W :=
  let '(n, err, s) := io.Write (writer w) p in
  (n, err, mkWriter s (prefixBytes w)).

(** [n, err := io.Copy(w.writer, source)] *)
Definition writer_Copy (w : tlsRecordFragWriter W) (source : io.Source)
  : Z * option io.error * tlsRecordFragWriter W * io.Source :=
  let '(n, err, s, source) := io.Copy (writer w) source in
  (n, err, mkWriter s (prefixBytes w), source).

(** [w.prefixBytes = v] *)
Definition set_prefixBytes (v : Z) (w : tlsRecordFragWriter W)
  : tlsRecordFragWriter W := mkWriter (writer w) v.

(** [func (w *tlsRecordFragWriter) dontFrag(first []byte, source io.Reader)
    (written int64, err error)]; the writer and the reader afterwards are
    part of the result. *)
Definition dontFrag (w : tlsRecordFragWriter W) (first : list byte)
    (source : io.Source)
  : Z * option io.error * tlsRecordFragWriter W * io.Source :=
  let '(tmp, err, w) := writer_Write w first in
  let written := int64 tmp in
  let w := set_prefixBytes 0 w in
  match err with
  | Some e => (written, Some e, w, source)
  | None =>
    let '(n, err, w, source) := writer_Copy w source in
    (int64 (written + n), err, w, source)
  end.

(** [func (w *tlsRecordFragWriter) ReadFrom(source io.Reader)
    (written int64, err error)]. [recordHeader] is the array of five zero
    bytes that [io.ReadFull] fills; [tail] is the [io.Copy] that ends the
    function. *)
Definition ReadFrom (w : tlsRecordFragWriter W) (source : io.Source)
  : outcome (Z * option io.error * tlsRecordFragWriter W * io.Source) :=
  let tail (w : tlsRecordFragWriter W) (source : io.Source) (written : Z) :=
    let '(n, err, w, source) := writer_Copy w source in
    (int64 (written + n), err, w, source) in
  if decide (0 < prefixBytes w) then
    let '(got, err, source) := io.ReadFull source 5 in
    let recordHeader := list_inserts 0 got (replicate 5 Byte.x00) in
    match err with
    | Some e => Ret (0, Some e, w, source)
    | None =>
      h3 ← slice_from recordHeader 3;
      u ← Uint16 h3;
      let recordLength := int32 u in
      h0 ← index recordHeader 0;
      if decide (byte_val h0 ≠ typeHandshake ∨ prefixBytes w >= recordLength)
      then Ret (dontFrag w recordHeader source)
      else if decide (recordLength > maxRecordLength)
      then Ret (dontFrag w recordHeader source)
      else
        buf ← make (int32 (recordLength + 10));
        header ← slice_to recordHeader 3;
        buf ← copy_at buf 0 header;
        buf ← PutUint16_at buf 3 (uint16 (prefixBytes w));
        slot ← slice buf 5 (int32 (5 + prefixBytes w));
        let '(p1, err, source) := io.ReadFull source (length slot) in
        buf ← copy_at buf 5 p1;
        let n2 := len p1 in
        match err with
        | Some e => Ret (0, Some e, set_prefixBytes 0 w, source)
        | None =>
          buf ← copy_at buf (5 + n2) header;
          buf ← PutUint16_at buf (5 + n2 + 3)
                  (uint16 (int32 (recordLength - prefixBytes w)));
          slot ← slice_from buf (int32 (10 + prefixBytes w));
          let '(p2, err, source) := io.ReadFull source (length slot) in
          buf ← copy_at buf (int32 (10 + prefixBytes w)) p2;
          match err with
          | Some e => Ret (0, Some e, set_prefixBytes 0 w, source)
          | None =>
            let '(tmp, err, w) := writer_Write w buf in
            let w := set_prefixBytes 0 w in
            let tmp := if decide (tmp >= 5) then tmp - 5 else tmp in
            let written := int64 tmp in
            match err with
            | Some e => Ret (written, Some e, w, source)
            | None => Ret (tail w source written)
            end
          end
        end
    end
  else Ret (tail w source 0).

(** [func (w *tlsRecordFragWriter) Write(data []byte)
    (written int, err error)] *)
Definition Write (w : tlsRecordFragWriter W) (data : list byte)
  : outcome (Z * option io.error * tlsRecordFragWriter W) :=
  if decide (0 < prefixBytes w) then
    let length := int32 (len data) in
    if decide (int32 (prefixBytes w + 5) >= length) then
      Ret (writer_Write (set_prefixBytes 0 w) data)
    else
      d3 ← slice_from data 3;
      u ← Uint16 d3;
      let recordLength := int32 u in
      remainder ← slice_from data 5;
      let remainderLength := int32 (length - 5) in
      let hasPartialRecord := bool_decide (recordLength > remainderLength) in
      let hasMultipleRecords := bool_decide (recordLength < remainderLength) in
      let isRecordOverflow := bool_decide (recordLength > maxRecordLength) in
      d0 ← index data 0;
      if bool_decide (byte_val d0 ≠ typeHandshake) || hasPartialRecord
         || bool_decide (prefixBytes w = recordLength) || isRecordOverflow
      then Ret (writer_Write (set_prefixBytes 0 w) data)
      else
        buf ← make (int32 (length + 5));
        header ← slice_to data 3;
        record1 ← slice_to remainder (prefixBytes w);
        record2 ← slice remainder (prefixBytes w) recordLength;
        buf ← copy_at buf 0 header;
        buf ← PutUint16_at buf 3 (uint16 (prefixBytes w));
        buf ← copy_at buf 5 record1;
        buf ← copy_at buf (int32 (5 + prefixBytes w)) header;
        buf ← PutUint16_at buf (int32 (5 + 3 + prefixBytes w))
                (uint16 (len record2));
        buf ← copy_at buf (int32 (5 + 5 + prefixBytes w)) record2;
        buf ← (if hasMultipleRecords then
                 rest ← slice_from remainder recordLength;
                 copy_at buf (int32 (5 + 5 + recordLength)) rest
               else Ret buf);
        let w := set_prefixBytes 0 w in
        let '(written, err, w) := writer_Write w buf in
        let written := if decide (written >= 5) then written - 5 else written in
        Ret (written, err, w)
  else Ret (writer_Write w data).

(** The state after the one-shot decision: a positive offset is cleared. *)
Definition disarm (w : tlsRecordFragWriter W) : tlsRecordFragWriter W :=
  if decide (0 < prefixBytes w) then set_prefixBytes 0 w else w.

(** Successive [Write] calls on one writer, with their results. *)
Fixpoint Writes (w : tlsRecordFragWriter W) (calls : list (list byte))
  : outcome (list (Z * option io.error) * tlsRecordFragWriter W) :=
  match calls with
  | [] => Ret ([], w)
  | data :: calls =>
    '(n, err, w) ← Write w data;
    '(results, w) ← Writes w calls;
    Ret ((n, err) :: results, w)
  end.

(** The same buffers handed to the sink itself. *)
Fixpoint sink_Writes (s : W) (calls : list (list byte))
  : list (Z * option io.error) * W :=
  match calls with
  | [] => ([], s)
  | data :: calls =>
    let '(n, err, s) := io.Write s data in
    let '(results, s) := sink_Writes s calls in
    ((n, err) :: results, s)
  end.

End Methods.
End tlsrecordfrag.

(** ** Sinks used in the examples *)

Module Sinks.

(** Takes every buffer whole. *)
#[global] Instance accept_all : io.Writer unit :=
  λ _ p, (len p, None, tt).

(** Takes at most [k] bytes of a buffer, and reports a short write
    beyond that. *)
#[global] Instance capped : io.Writer nat :=
  λ k p,
    if decide (length p ≤ k)%nat then (len p, None, k)
    else (Z.of_nat k, Some io.ErrShortWrite, k).

(** Refuses every buffer. *)
Inductive broken := Broken.
#[global] Instance refuse_all : io.Writer broken :=
  λ s _, (0, Some (io.Err 1), s).

End Sinks.

(** ** The record layer, in the words of the specification *)

#[global] Instance byte_inhabited : Inhabited byte := populate Byte.x00.

(** The big-endian length field of a record header. *)
Definition u16 (v : Z) : list byte := [byte_of (Z.shiftr v 8); byte_of v].

(** Type and length fields of the header at the start of [data]. *)
Definition hdr_type (data : list byte) : Z := byte_val (data !!! 0%nat).
Definition hdr_length (data : list byte) : Z :=
  byte_val (data !!! 3%nat) * 256 + byte_val (data !!! 4%nat).

(** The output of a split at [off]:
    [headerA ++ payload[0:off] ++ headerB ++ payload[off:length] ++ trailing],
    both headers with the type and version bytes of the original. *)
Definition split_record (off : Z) (data : list byte) : list byte :=
  let L := hdr_length data in
  let payload := take (Z.to_nat L) (drop 5 data) in
  let trailing := drop (5 + Z.to_nat L) data in
  (take 3 data ++ u16 off) ++ take (Z.to_nat off) payload ++
  (take 3 data ++ u16 (L - off)) ++ drop (Z.to_nat off) payload ++
  trailing.

(** The record is a handshake record that a split at [off] cuts into two
    non-empty fragments. *)
Definition eligible (off : Z) (data : list byte) : Prop :=
  hdr_type data = 22 ∧ hdr_length data ≤ 16384 ∧ 0 < off < hdr_length data.

#[global] Instance eligible_dec off data : Decision (eligible off data).
Proof. unfold eligible. apply _. Defined.

(** Push mode splits when the whole record is in the buffer as well. *)
Definition push_splits (off : Z) (data : list byte) : Prop :=
  eligible off data ∧ hdr_length data ≤ len data - 5.

#[global] Instance push_splits_dec off data : Decision (push_splits off data).
Proof. unfold push_splits. apply _. Defined.

(** The buffers on which push mode slices out of range: a handshake record
    whose length field is below the offset, in a buffer longer than
    offset + 5. *)
Definition push_faults (off : Z) (data : list byte) : Prop :=
  hdr_type data = 22 ∧ hdr_length data ≤ 16384 ∧
  hdr_length data < off ∧ off + 5 < len data.

#[global] Instance push_faults_dec off data : Decision (push_faults off data).
Proof. unfold push_faults. apply _. Defined.

(** The count reported for a split buffer of which the sink took [n]. *)
Definition adjust (n : Z) : Z := if decide (n >= 5) then n - 5 else n.

(** The two fragments of a split, without what follows the record. *)
Definition fragments (off : Z) (input : list byte) : list byte :=
  let L := hdr_length input in
  let payload := take (Z.to_nat L) (drop 5 input) in
  (take 3 input ++ u16 off) ++ take (Z.to_nat off) payload ++
  (take 3 input ++ u16 (L - off)) ++ drop (Z.to_nat off) payload.

(** The error of the payload read that fell short: the first slot when
    the source ends before the offset, the second otherwise. *)
Definition payload_read_error (off : Z) (source : io.Source) : io.error :=
  let payload := drop 5 (io.remaining source) in
  io.short_read_error (io.final source)
    (if decide (len payload < off) then payload
     else drop (Z.to_nat off) payload).

(** ** Package config: the Shadowsocks URL *)

Module config.

(** Go strings are byte sequences. *)
Definition gostring : Type := list byte.

(** *** UTF-8 decoding of the conversion [[]rune(s)] (runtime/utf8.go) *)

Definition runeError : Z := 0xFFFD.
Definition maxRune : Z := 0x10FFFF.
Definition surrogateMin : Z := 0xD800.
Definition surrogateMax : Z := 0xDFFF.

(** A continuation byte: [locb <= b && b <= hicb]. *)
Definition is_cont (b : byte) : bool :=
bool_decide (0x80 ≤ byte_val b ≤ 0xBF).

(** [decoderune]: the rune at the start of a non-empty string, and what
  follows it. A malformed sequence yields [runeError] and uses up one
  byte. *)
Definition decoderune (s : gostring) : Z * gostring :=
let bad := (runeError, drop 1 s) in
match s with
| [] => bad
| c0 :: s1 =>
  let v0 := byte_val c0 in
  if bool_decide (0xC0 ≤ v0 < 0xE0) then
    match s1 with
    | c1 :: rest =>
      if is_cont c1 then
        let r := Z.lor (Z.shiftl (Z.land v0 0x1F) 6)
                       (Z.land (byte_val c1) 0x3F) in
        if bool_decide (0x7F < r) then (r, rest) else bad
      else bad
    | _ => bad
    end
  else if bool_decide (0xE0 ≤ v0 < 0xF0) then
    match s1 with
    | c1 :: c2 :: rest =>
      if is_cont c1 && is_cont c2 then
        let r := Z.lor (Z.lor (Z.shiftl (Z.land v0 0x0F) 12)
                              (Z.shiftl (Z.land (byte_val c1) 0x3F) 6))
                       (Z.land (byte_val c2) 0x3F) in
        if bool_decide (0x7FF < r ∧ ¬ (surrogateMin ≤ r ≤ surrogateMax))
        then (r, rest) else bad
      else bad
    | _ => bad
    end
  else if bool_decide (0xF0 ≤ v0 < 0xF8) then
    match s1 with
    | c1 :: c2 :: c3 :: rest =>
      if is_cont c1 && is_cont c2 && is_cont c3 then
        let r := Z.lor (Z.lor (Z.lor (Z.shiftl (Z.land v0 0x07) 18)
                                     (Z.shiftl (Z.land (byte_val c1) 0x3F) 12))
                              (Z.shiftl (Z.land (byte_val c2) 0x3F) 6))
                       (Z.land (byte_val c3) 0x3F) in
        if bool_decide (0xFFFF < r ≤ maxRune) then (r, rest) else bad
      else bad
    | _ => bad
    end
  else bad
end.

(** The loop of [for _, r := range s]: a byte below [0x80] is its own
  rune. Every turn uses up a byte at least, so [length s] turns are
  enough. *)
Fixpoint range_runes (fuel : nat) (s : gostring) : list Z :=
match fuel, s with
| S fuel, c :: s' =>
  if bool_decide (byte_val c < 0x80) then byte_val c :: range_runes fuel s'
  else let '(r, rest) := decoderune s in r :: range_runes fuel rest
| _, _ => []
end.

(** [[]rune(s)] *)
Definition runes_of (s : gostring) : list Z := range_runes (length s) s.

(** *** shadowsocks.go *)

Inductive error : Type :=
| HostNotSpecified                 (* host not specified *)
| DecodeCipherInfo                 (* failed to decode cipher info *)
| NoSeparator                      (* invalid cipher info: no ':' separator *)
| CreateCipher                     (* failed to create cipher *)
| CharacterOutOfRange (r : Z)      (* character out of range: r *)
| ParsePrefix (e : error).         (* failed to parse prefix: e *)

Inductive result (A : Type) : Type :=
| Ok (a : A)
| Failed (e : error).
Arguments Ok {A} a.
Arguments Failed {A} e.

(** The loop of [parseStringPrefix], from index [i] on. *)
Fixpoint parse_loop (i : nat) (runes : list Z) (rawBytes : list byte)
: result (list byte) :=
match runes with
| [] => Ok rawBytes
| r :: runes =>
  if decide (Z.land r 0xFF ≠ r) then Failed (CharacterOutOfRange r)
  else parse_loop (S i) runes (<[i := byte_of r]> rawBytes)
end.

Definition parseStringPrefix (utf8Str : gostring) : result (list byte) :=
let runes := runes_of utf8Str in
let rawBytes := replicate (length runes) Byte.x00 in
parse_loop 0 runes rawBytes.

#[global] Instance byte_eq_dec : EqDecision byte := Byte.byte_eq_dec.

(** [strings.Cut(s, sep)] for a separator of one byte. *)
Fixpoint Cut (s : gostring) (sep : byte) : gostring * gostring * bool :=
match s with
| [] => ([], [], false)
| c :: s' =>
  if decide (c = sep) then ([], s', true)
  else let '(before, after, found) := Cut s' sep in
       (c :: before, after, found)
end.

(** The fields of [*url.URL] that the parser looks at: [url.Host],
  [url.User.String()] and [url.Query().Get("prefix")]. *)
Record URL := mkURL {
Host : gostring;
User : gostring;
Query_prefix : gostring
}.

Section Shadowsocks.

(** [shadowsocks.EncryptionKey] and its constructor, and the unpadded
URL-safe base64 decoder, are taken as given. *)
Context {EncryptionKey : Type}.
Variable NewEncryptionKey : gostring → gostring → option EncryptionKey.
Variable DecodeString : gostring → option (list byte).

Record shadowsocksConfig := mkConfig {
serverAddress : gostring;
cryptoKey : option EncryptionKey;
prefix : list byte
}.

Definition parseShadowsocksURL (url : URL) : result shadowsocksConfig :=
let config := mkConfig [] None [] in
if decide (Host url = []) then Failed HostNotSpecified
else
let config := mkConfig (Host url) (cryptoKey config) (prefix config) in
match DecodeString (User url) with
| None => Failed DecodeCipherInfo
| Some cipherInfoBytes =>
  let '(cipherName, secret, found) := Cut cipherInfoBytes Byte.x3a in
  if negb found then Failed NoSeparator
  else
    match NewEncryptionKey cipherName secret with
    | None => Failed CreateCipher
    | Some key =>
      let config := mkConfig (serverAddress config) (Some key) (prefix config) in
      let prefixStr := Query_prefix url in
      if decide (0 < len prefixStr) then
        match parseStringPrefix prefixStr with
        | Failed e => Failed (ParsePrefix e)
        | Ok p => Ok (mkConfig (serverAddress config) (cryptoKey config) p)
        end
      else Ok config
    end
end.

End Shadowsocks.
End config.

(** ** Concrete inputs *)

Module Examples.

Definition header16 : list byte := [x16; x03; x03; x00; x10].

Definition payload16 : list byte :=
  [x01; x02; x03; x04; x05; x06; x07; x08;
   x09; x0a; x0b; x0c; x0d; x0e; x0f; x10].

(** A handshake record with sixteen bytes of payload. *)
Definition record21 : list byte := header16 ++ payload16.

(** A handshake record with the length field 4, and eleven more bytes. *)
Definition record4_and_more : list byte :=
  [x16; x03; x03; x00; x04] ++ payload16.

(** An oversized record: the length field is 16385. *)
Definition oversized : list byte :=
  [x16; x03; x03; x40; x01] ++ payload16.

(** A handshake record of the largest length that is split: 16384. *)
Definition largest : list byte :=
  [x16; x03; x03; x40; x00] ++ replicate (Z.to_nat 16384) x2a.

(** A fresh writer over a sink in state [s], with an empty log. *)
Definition fresh {S} (s : S) (offset : Z)
  : tlsrecordfrag.tlsRecordFragWriter (io.Logged S) :=
  tlsrecordfrag.NewWriter (io.mkLogged s []) offset.

(** A source that hands out [bytes] in one chunk and then ends. *)
Definition source_of (bytes : list byte) : io.Source :=
  io.mkSource [bytes] io.EOF.

(** A Shadowsocks URL whose prefix parameter is [é A ÿ] in UTF-8, with a
    decoder that hands the user info back and a cipher that takes any
    key. *)
Definition prefix_url : config.URL :=
  config.mkURL [x68] [x61; x3a; x62] [xc3; xa9; x41; xc3; xbf].
Definition any_key (cipherName secret : config.gostring) : option unit :=
  Some tt.
Definition no_decoding (s : config.gostring) : option (list byte) := Some s.

End Examples.

(** ** Latin-1 prefixes *)

Module latin1.
Import config.

(** The UTF-8 encoding of the rune whose code point is the value of [b]
    (what [utf8.AppendRune] gives for a rune below [0x100]): the byte
    itself below [0x80], two bytes otherwise. *)
Definition utf8_of_byte (b : byte) : gostring :=
  let v := byte_val b in
  if bool_decide (v < 0x80) then [b]
  else [byte_of (Z.lor 0xC0 (Z.shiftr v 6));
        byte_of (Z.lor 0x80 (Z.land v 0x3F))].

(** The string that spells the bytes [p] as Latin-1 characters. *)
Definition utf8_of_latin1 (p : list byte) : gostring :=
  concat (utf8_of_byte <$> p).

End latin1.

(** ** Package config: the Shadowsocks dialers *)

Module dialers.

(** [transport.StreamDialerEndpoint] and [transport.PacketDialerEndpoint] *)
Record Endpoint (D : Type) := mkEndpoint {
  Dialer : D;
  Address : config.gostring
}.
Arguments mkEndpoint {D} _ _.
Arguments Dialer {D} _.
Arguments Address {D} _.

(** [transport.PacketListenerDialer] *)
Record PacketListenerDialer (L : Type) := mkPacketListenerDialer {
  Listener : L
}.
Arguments mkPacketListenerDialer {L} _.
Arguments Listener {L} _.

(** The error of a constructor: that of [parseShadowsocksURL], or that of
    a constructor of package shadowsocks, both returned as they come. *)
Inductive error (E : Type) : Type :=
  | ParseError (e : config.error)
  | ShadowsocksError (e : E).
Arguments ParseError {E} e.
Arguments ShadowsocksError {E} e.

Section Constructors.

(** Package shadowsocks is taken as given: its key, stream dialer, packet
    listener and salt generator types, its errors, its constructors, and
    the assignment to the field [SaltGenerator] of a stream dialer. *)
Context {EncryptionKey StreamDialer PacketListener SaltGenerator E : Type}.
Context {InnerStream InnerPacket : Type}.
Variable NewEncryptionKey :
  config.gostring → config.gostring → option EncryptionKey.
Variable DecodeString : config.gostring → option (list byte).
Variable NewStreamDialer :
  Endpoint InnerStream → option EncryptionKey → StreamDialer + E.
Variable NewPacketListener :
  Endpoint InnerPacket → option EncryptionKey → PacketListener + E.
Variable NewPrefixSaltGenerator : list byte → SaltGenerator.
Variable set_SaltGenerator : StreamDialer → SaltGenerator → StreamDialer.

Definition newShadowsocksStreamDialerFromURL (innerDialer : InnerStream)
    (configURL : config.URL) : StreamDialer + error E :=
  match config.parseShadowsocksURL NewEncryptionKey DecodeString configURL with
  | config.Failed err => inr (ParseError err)
  | config.Ok config =>
    let endpoint := mkEndpoint innerDialer (config.serverAddress config) in
    match NewStreamDialer endpoint (config.cryptoKey config) with
    | inr err => inr (ShadowsocksError err)
    | inl dialer =>
      let dialer :=
        if decide (0 < len (config.prefix config))
        then set_SaltGenerator dialer
               (NewPrefixSaltGenerator (config.prefix config))
        else dialer in
      inl dialer
    end
  end.

Definition newShadowsocksPacketDialerFromURL (innerDialer : InnerPacket)
    (configURL : config.URL) : PacketListenerDialer PacketListener + error E :=
  match config.parseShadowsocksURL NewEncryptionKey DecodeString configURL with
  | config.Failed err => inr (ParseError err)
  | config.Ok config =>
    let endpoint := mkEndpoint innerDialer (config.serverAddress config) in
    match NewPacketListener endpoint (config.cryptoKey config) with
    | inr err => inr (ShadowsocksError err)
    | inl listener => inl (mkPacketListenerDialer listener)
    end
  end.

End Constructors.
End dialers.

(** ** Command outline-connectivity: the error record *)

Module outline_connectivity.

(** The fields [Op] and [PosixError] of a [*connectivity.TestError]. *)
Definition TestError_fields : Type := config.gostring * config.gostring.

(** An error value: what its [Error] method returns, the fields of a
    [*connectivity.TestError] when that is its dynamic type, and the error
    [errors.Unwrap] finds in it, if it wraps one. (Errors that wrap
    several errors, or that have an [As] method of their own, are not
    modelled.) *)
Inductive goerror : Type :=
  | Plain (msg : config.gostring) (test : option TestError_fields)
  | Wrapping (msg : config.gostring) (test : option TestError_fields)
             (wrapped : goerror).



(** [errors.Unwrap(err)] *)
Definition Unwrap (err : goerror) : option goerror :=
  match err with
  | Plain _ _ => None
  | Wrapping _ _ wrapped => Some wrapped
  end.




(** The loop of [unwrapAll]: one turn for each error that wraps one. *)
Fixpoint unwrapAll (err : goerror) : goerror :=
  match err with
  | Plain _ _ => err
  | Wrapping _ _ unwrapped => unwrapAll unwrapped
  end.


(** The error and all it wraps, from the outside in. *)
Fixpoint chain (err : goerror) : list goerror :=
  match err with
  | Plain _ _ => [err]
  | Wrapping _ _ wrapped => err :: chain wrapped
  end.

End outline_connectivity.

(** ** More concrete inputs *)

Module Inputs.

(** An application-data record with sixteen bytes of payload. *)
Definition appdata21 : list byte :=
  [x17; x03; x03; x00; x10] ++ Examples.payload16.

(** A source that hands out [bytes] in two reads, cut inside the header. *)
Definition in_two_reads (bytes : list byte) : io.Source :=
  io.mkSource [take 3 bytes; drop 3 bytes] io.EOF.

(** A Shadowsocks URL whose prefix parameter is U+0100 in UTF-8. *)
Definition wide_url : config.URL :=
  config.mkURL [x68] [x61; x3a; x62] [xc4; x80].

(** A packet listener that is the address it was made for. *)
Definition listener_at (endpoint : dialers.Endpoint unit) (key : option unit)
  : config.gostring + unit :=
  inl (dialers.Address endpoint).

(** An error that wraps a [TestError] that wraps a plain error. *)
Definition dial_error : outline_connectivity.goerror :=
  outline_connectivity.Wrapping [x61] None
    (outline_connectivity.Wrapping [x62] (Some ([x6f], [x70]))
       (outline_connectivity.Plain [x63] None)).

End Inputs.

Import tlsrecordfrag.

(** * Properties *)

(** ** Integers, bytes and buffers *)

Section Arithmetic.

Lemma int32_id z : - 2 ^ 31 ≤ z < 2 ^ 31 → int32 z = z.
Proof.
  intros Hz. unfold int32, wrap.
  change (2 ^ (32 - 1)) with (2 ^ 31). change (2 ^ 32) with (2 * 2 ^ 31).
  rewrite Z.mod_small; lia.
Qed.

Lemma int64_id z : - 2 ^ 63 ≤ z < 2 ^ 63 → int64 z = z.
Proof.
  intros Hz. unfold int64, wrap.
  change (2 ^ (64 - 1)) with (2 ^ 63). change (2 ^ 64) with (2 * 2 ^ 63).
  rewrite Z.mod_small; lia.
Qed.

Lemma int64_range z : - 2 ^ 63 ≤ int64 z < 2 ^ 63.
Proof.
  unfold int64, wrap.
  change (2 ^ (64 - 1)) with (2 ^ 63). change (2 ^ 64) with (2 * 2 ^ 63).
  pose proof (Z.mod_pos_bound (z + 2 ^ 63) (2 * 2 ^ 63)). lia.
Qed.

Lemma uint16_id z : 0 ≤ z < 65536 → uint16 z = z.
Proof. intros. unfold uint16. by rewrite Z.mod_small. Qed.

Lemma byte_val_range b : 0 ≤ byte_val b < 256.
Proof.
  unfold byte_val. pose proof (Byte.to_N_bounded b). lia.
Qed.

Lemma byte_val_of z : byte_val (byte_of z) = z mod 256.
Proof.
  unfold byte_val, byte_of.
  pose proof (Z.mod_pos_bound z 256 eq_refl) as Hm.
  destruct (Byte.of_N (Z.to_N (z mod 256))) as [b|] eqn:Hb; simpl.
  - apply Byte.to_of_N in Hb. rewrite Hb. lia.
  - apply Byte.of_N_None_iff in Hb. lia.
Qed.

(** The two bytes of a big-endian 16-bit field do not overlap. *)
Lemma lor_shiftl_8 a b :
  0 ≤ a → 0 ≤ b < 256 → Z.lor (Z.shiftl a 8) b = a * 256 + b.
Proof.
  intros Ha Hb. rewrite Z.shiftl_mul_pow2 by lia. change (2 ^ 8) with 256.
  assert (Hland : Z.land (a * 256) b = 0).
  { apply Z.bits_inj'. intros n Hn. rewrite Z.land_spec, Z.bits_0.
    destruct (decide (n < 8)) as [Hlt|Hge].
    - change 256 with (2 ^ 8). by rewrite Z.mul_pow2_bits_low.
    - replace (Z.testbit b n) with false; [by rewrite andb_false_r|].
      symmetry. destruct (decide (b = 0)) as [->|Hnz]; [apply Z.bits_0|].
      apply Z.bits_above_log2; [lia|].
      assert (Z.log2 b < 8) by (apply Z.log2_lt_pow2; lia). lia. }
  by rewrite <- Z.lxor_lor, <- Z.add_nocarry_lxor.
Qed.

Lemma shiftr_8 z : Z.shiftr z 8 = z / 256.
Proof. by rewrite Z.shiftr_div_pow2. Qed.

End Arithmetic.

(** The length field written by [PutUint16] reads back with [Uint16]. *)
Lemma Uint16_Put v rest :
  0 ≤ v < 65536 →
  binary.Uint16 (byte_of (Z.shiftr v 8) :: byte_of v :: rest) = Ret v.
Proof.
  intros Hv. unfold binary.Uint16. f_equal.
  rewrite !byte_val_of, shiftr_8.
  rewrite lor_shiftl_8 by (apply Z.mod_pos_bound; lia).
  rewrite (Z.mod_small (v / 256)).
  - pose proof (Z.div_mod v 256). lia.
  - split; [apply Z.div_pos; lia | apply Z.div_lt_upper_bound; lia].
Qed.

Lemma Uint16_value b0 b1 rest :
  binary.Uint16 (b0 :: b1 :: rest) = Ret (byte_val b0 * 256 + byte_val b1).
Proof.
  unfold binary.Uint16. f_equal.
  pose proof (byte_val_range b0). pose proof (byte_val_range b1).
  by apply lor_shiftl_8; lia.
Qed.

Section Buffers.
Context {A : Type}.
Implicit Types l pre src : list A.

Lemma len_nonneg l : 0 ≤ len l.
Proof. unfold len. lia. Qed.

(** Copying into the still blank part of a buffer. *)
Lemma inserts_fill pre src n (x : A) :
  (length src ≤ n)%nat →
  list_inserts (length pre) src (pre ++ replicate n x)
  = pre ++ src ++ replicate (n - length src) x.
Proof.
  intros Hn.
  replace (length pre) with (length pre + 0)%nat by lia.
  rewrite list_inserts_app_r. f_equal.
  replace n with (length src + (n - length src))%nat at 1 by lia.
  rewrite replicate_add. apply list_inserts_0_r.
  by rewrite length_replicate.
Qed.

End Buffers.

Section RecordLayer.

Lemma hdr_length_range data : 0 ≤ hdr_length data < 65536.
Proof.
  unfold hdr_length.
  pose proof (byte_val_range (data !!! 3%nat)).
  pose proof (byte_val_range (data !!! 4%nat)). lia.
Qed.

Lemma u16_length v : length (u16 v) = 2%nat.
Proof. reflexivity. Qed.

(** The header of the first fragment carries the offset, that of the
    second what is left of the record. *)
Lemma hdr_length_make t v1 v2 x rest :
  0 ≤ x < 65536 → hdr_length (([t; v1; v2] ++ u16 x) ++ rest) = x.
Proof.
  intros Hx. unfold hdr_length. simpl.
  pose proof (Uint16_Put x [] Hx) as HU. rewrite Uint16_value in HU.
  by injection HU.
Qed.

End RecordLayer.

(** ** Steps of the writer on its buffer *)

Lemma bind_Ret {A B} (a : A) (f : A → outcome B) : (Ret a ≫= f) = f a.
Proof. reflexivity. Qed.

(** Lengths of the pieces of a buffer, for [lia]. *)
Ltac len_simpl :=
  unfold len in *;
  repeat (rewrite ?length_app, ?length_take, ?length_drop, ?length_replicate,
            ?length_inserts, ?length_cons, ?u16_length in * );
  simpl length in *.
Ltac len_solve := len_simpl; lia.

Section BufferSteps.
Implicit Types pre src dst : list byte.

Lemma slice_from_ok {A} (s : list A) lo :
  0 ≤ lo ≤ len s → slice_from s lo = Ret (drop (Z.to_nat lo) s).
Proof. intros. unfold slice_from. by rewrite decide_True. Qed.

Lemma slice_to_ok {A} (s : list A) hi :
  0 ≤ hi ≤ len s → slice_to s hi = Ret (take (Z.to_nat hi) s).
Proof. intros. unfold slice_to. by rewrite decide_True. Qed.

Lemma slice_ok {A} (s : list A) lo hi :
  0 ≤ lo ≤ hi → hi ≤ len s →
  slice s lo hi = Ret (take (Z.to_nat (hi - lo)) (drop (Z.to_nat lo) s)).
Proof. intros. unfold slice. by rewrite decide_True. Qed.

Lemma slice_inverted {A} (s : list A) lo hi :
  hi < lo → slice s lo hi = Panic SliceBounds.
Proof. intros. unfold slice. rewrite decide_False; [done|lia]. Qed.

Lemma make_ok n :
  0 ≤ n → make n = Ret ([] ++ replicate (Z.to_nat n) Byte.x00).
Proof. intros. unfold make. by rewrite decide_True. Qed.

Lemma copy_at_ok dst off src :
  0 ≤ off ≤ len dst →
  copy_at dst off src = Ret (list_inserts (Z.to_nat off) src dst).
Proof. intros. unfold copy_at. by rewrite decide_True. Qed.

Lemma copy_at_fill pre src n off :
  off = len pre → (length src ≤ n)%nat →
  copy_at (pre ++ replicate n Byte.x00) off src
  = Ret ((pre ++ src) ++ replicate (n - length src) Byte.x00).
Proof.
  intros -> Hn. rewrite copy_at_ok by len_solve.
  unfold len. rewrite Nat2Z.id, inserts_fill by done.
  by rewrite <- app_assoc.
Qed.

Lemma PutUint16_at_fill pre v n off :
  off = len pre → (2 ≤ n)%nat →
  binary.PutUint16_at (pre ++ replicate n Byte.x00) off v
  = Ret ((pre ++ u16 v) ++ replicate (n - 2) Byte.x00).
Proof.
  intros -> Hn. unfold binary.PutUint16_at.
  rewrite decide_True by len_solve. rewrite decide_True by len_solve.
  unfold len. rewrite Nat2Z.id. fold (u16 v).
  rewrite inserts_fill by (simpl; lia). by rewrite <- app_assoc.
Qed.

Lemma copy_at_fill_exact pre src n off :
  off = len pre → length src = n →
  copy_at (pre ++ replicate n Byte.x00) off src = Ret (pre ++ src).
Proof.
  intros Hoff Hn. rewrite copy_at_fill by (done || lia).
  replace (n - length src)%nat with 0%nat by lia. simpl.
  by rewrite app_nil_r.
Qed.

Lemma blank_nil pre n : n = 0%nat → pre ++ replicate n Byte.x00 = pre.
Proof. intros ->. apply app_nil_r. Qed.

End BufferSteps.


(** ** Readers and [io.ReadFull] *)

Section Readers.
Import io.
Implicit Types r : Source.

Lemma remaining_cons c cs e :
  remaining (mkSource (c :: cs) e) = c ++ remaining (mkSource cs e).
Proof. reflexivity. Qed.

(** What one [Read] does to the reader. *)
Lemma Read_spec r k p err r' :
  Read r k = (p, err, r') →
  remaining r = p ++ remaining r' ∧ final r' = final r ∧
  (length p ≤ k)%nat ∧
  match err with
  | None => (0 < k → weight r' < weight r)%nat ∧
            (0 < k → 0 < length (chunks r))%nat ∧
            (0 < k → length p < k → length (chunks r') < length (chunks r))%nat
  | Some e => e = final r ∧ p = [] ∧ remaining r = [] ∧ r' = r
  end.
Proof.
  destruct r as [cs e]. unfold Read. destruct k as [|k]; simpl.
  { intros [= <- <- <-]. simpl. repeat split; first [done | lia]. }
  destruct cs as [|c cs];
    [intros [= <- <- <-]; repeat split; first [done | simpl; lia]|].
  case_decide as Hc; intros [= <- <- <-]; unfold weight, remaining; simpl.
  - rewrite length_app. repeat split; lia.
  - rewrite !length_app, length_take, length_drop.
    rewrite (app_assoc (take _ _)), take_drop.
    repeat split; lia.
Qed.

(** The loop of [ReadAtLeast], in terms of the bytes the reader holds. *)
Lemma ReadAtLeast_loop_spec fuel r min got got' err r' :
  (1 ≤ fuel)%nat →
  ((length got < min)%nat → (length (chunks r) < fuel)%nat) →
  ReadAtLeast_loop fuel r min got = (got', err, r') →
  ∃ x, got' = got ++ x ∧ remaining r = x ++ remaining r' ∧
       final r' = final r ∧
       match err with
       | None => length got' = Nat.max min (length got)
       | Some e => e = final r ∧ remaining r' = [] ∧
                   (length got' < min)%nat
       end.
Proof.
  revert r got. induction fuel as [|fuel IH]; intros r got Hf Hc; [lia|].
  simpl. case_decide as Hlt.
  - destruct (Read r (min - length got)) as [[p e] r1] eqn:HR.
    apply Read_spec in HR as (Hrem & Hfin & Hlen & Herr).
    destruct e as [e|].
    + destruct Herr as (-> & -> & Hnil & ->). intros [= <- <- <-].
      exists []. rewrite app_nil_r. by repeat split.
    + destruct Herr as (_ & Hch & Hch'). intros Hloop.
      specialize (Hc Hlt).
      apply IH in Hloop as (x & -> & Hrem' & Hfin' & Hres).
      * exists (p ++ x). rewrite <- !app_assoc, Hrem, Hrem', Hfin', Hfin.
        repeat split. rewrite !length_app in *.
        destruct err as [e|]; [|lia].
        destruct Hres as (-> & ? & ?). repeat split; [done..|lia].
      * lia.
      * rewrite length_app. intros Hstill.
        specialize (Hch' ltac:(lia) ltac:(lia)). lia.
  - intros [= <- <- <-]. exists []. rewrite app_nil_r. repeat split. lia.
Qed.

Lemma ReadFull_spec r n :
  ∃ r', remaining r' = drop n (remaining r) ∧ final r' = final r ∧
    ReadFull r n =
      (take n (remaining r),
       if decide (n ≤ length (remaining r))%nat then None
       else Some (short_read_error (final r) (remaining r)),
       r').
Proof.
  unfold ReadFull.
  destruct (ReadAtLeast_loop _ r n []) as [[got err] r'] eqn:Hloop.
  apply ReadAtLeast_loop_spec in Hloop as (x & -> & Hrem & Hfin & Hres);
    [|lia..].
  simpl in *. exists r'. rewrite Hrem. destruct err as [e|].
  - destruct Hres as (-> & Hnil & Hlt). rewrite Hnil, !app_nil_r.
    rewrite take_ge, drop_ge by lia. repeat split; [done|].
    unfold short_read_error.
    repeat case_decide; first [done | lia | exfalso; intuition congruence].
  - rewrite Nat.max_0_r in Hres. subst n.
    rewrite take_app_length, drop_app_length, length_app.
    repeat split; [done|]. repeat case_decide; first [done | lia].
Qed.

Lemma ReadFull_enough r n :
  (n ≤ length (remaining r))%nat →
  ∃ r', ReadFull r n = (take n (remaining r), None, r') ∧
        remaining r' = drop n (remaining r) ∧ final r' = final r.
Proof.
  intros Hn. destruct (ReadFull_spec r n) as (r' & ? & ? & Heq).
  exists r'. rewrite decide_True in Heq by done. done.
Qed.

Lemma ReadFull_short r n :
  (length (remaining r) < n)%nat →
  ∃ r', ReadFull r n =
          (remaining r, Some (short_read_error (final r) (remaining r)), r') ∧
        remaining r' = [] ∧ final r' = final r.
Proof.
  intros Hn. destruct (ReadFull_spec r n) as (r' & Hrem & ? & Heq).
  exists r'. rewrite decide_False, take_ge in Heq by lia.
  rewrite drop_ge in Hrem by lia. done.
Qed.

End Readers.

(** ** Writers and [io.Copy] *)

Section Copying.
Import io.
Context {W : Type} `{!Writer W}.

Lemma copyBufferSize_pos : (0 < copyBufferSize)%nat.
Proof. unfold copyBufferSize. lia. Qed.

Lemma Write_Logged (s : W) (log : list (list byte)) p :
  Write (mkLogged s log) p =
  (let '(n, err, s') := Write s p in (n, err, mkLogged s' (log ++ [p]))).
Proof. reflexivity. Qed.

(** One turn of the loop, with the [Read] already made. *)
Lemma copy_loop_S fuel (dst : W) src written :
  copy_loop (S fuel) dst src written =
  let '(p, er, src) := Read src copyBufferSize in
  let after_write dst written :=
    match er with
    | Some e => (written, if decide (e = EOF) then None else Some e, dst, src)
    | None => copy_loop fuel dst src written
    end in
  let nr := len p in
  if decide (0 < nr) then
    let '(nw, ew, dst) := Write dst p in
    let '(nw, ew) :=
      if decide (nw < 0 ∨ nr < nw)
      then (0, Some (default errInvalidWrite ew))
      else (nw, ew) in
    let written := int64 (written + int64 nw) in
    match ew with
    | Some e => (written, Some e, dst, src)
    | None =>
      if decide (nr ≠ nw) then (written, Some ErrShortWrite, dst, src)
      else after_write dst written
    end
  else after_write dst written.
Proof. reflexivity. Qed.

(** The fuel of [Copy] is enough: more of it changes nothing. *)
Lemma copy_loop_fuel f1 f2 (dst : W) src written :
  (weight src ≤ f1)%nat → (weight src ≤ f2)%nat →
  copy_loop f1 dst src written = copy_loop f2 dst src written.
Proof.
  revert f2 dst src written.
  induction f1 as [|f1 IH]; intros f2 dst src written H1 H2;
    [unfold weight in H1; lia|].
  destruct f2 as [|f2]; [unfold weight in H2; lia|].
  rewrite !copy_loop_S.
  destruct (Read src copyBufferSize) as [[p er] src1] eqn:HR.
  apply Read_spec in HR as (_ & _ & _ & Herr).
  destruct er as [e|]; [reflexivity|].
  destruct Herr as (Hw & _). specialize (Hw copyBufferSize_pos).
  cbv zeta. case_decide; [|apply IH; lia].
  destruct (Write dst p) as [[nw ew] dst1].
  case_decide; [reflexivity|]. destruct ew; [reflexivity|].
  case_decide; [reflexivity|]. apply IH; lia.
Qed.

Lemma Copy_fuel fuel (dst : W) src :
  (weight src ≤ fuel)%nat → copy_loop fuel dst src 0 = Copy dst src.
Proof. intros. unfold Copy. by apply copy_loop_fuel. Qed.

(** The count of [Copy] is an [int64]. *)
Lemma copy_loop_range fuel (dst : W) src written n err dst' src' :
  - 2 ^ 63 ≤ written < 2 ^ 63 →
  copy_loop fuel dst src written = (n, err, dst', src') →
  - 2 ^ 63 ≤ n < 2 ^ 63.
Proof.
  revert dst src written.
  induction fuel as [|fuel IH]; intros dst src written Hw;
    [by intros [= <- _ _ _]|].
  rewrite copy_loop_S.
  destruct (Read src copyBufferSize) as [[p er] src1].
  cbv zeta. case_decide.
  - destruct (Write dst p) as [[nw ew] dst1].
    pose proof (int64_range (written + int64 nw)).
    pose proof (int64_range (written + int64 0)).
    case_decide; [by intros [= <- _ _ _]|].
    destruct ew; [by intros [= <- _ _ _]|].
    case_decide; [by intros [= <- _ _ _]|].
    destruct er; [by intros [= <- _ _ _]|]. by apply IH.
  - destruct er; [by intros [= <- _ _ _]|]. by apply IH.
Qed.

Lemma Copy_range (dst : W) src n err dst' src' :
  Copy dst src = (n, err, dst', src') → - 2 ^ 63 ≤ n < 2 ^ 63.
Proof. apply copy_loop_range. lia. Qed.

End Copying.

Section CopyingLogged.
Import io.
Context {W : Type} `{!Writer W}.

(** Into a sink that takes everything, [Copy] hands every byte of the
    source, in order. *)
Lemma copy_loop_accepting fuel (dst : Logged W) src written :
  accepts_all W → (weight src ≤ fuel)%nat →
  ∃ n dst' src',
    copy_loop fuel dst src written = (n, copy_error (final src), dst', src') ∧
    concat (delivered dst') = concat (delivered dst) ++ remaining src ∧
    remaining src' = [] ∧ final src' = final src.
Proof.
  intros Hacc. revert dst src written.
  induction fuel as [|fuel IH]; intros dst src written Hf;
    [unfold weight in Hf; lia|].
  rewrite copy_loop_S.
  destruct (Read src copyBufferSize) as [[p er] src1] eqn:HR.
  apply Read_spec in HR as (Hrem & Hfin & _ & Herr).
  cbv zeta. destruct er as [e|].
  - destruct Herr as (-> & -> & Hnil & ->). simpl.
    eexists _, _, _. split; [reflexivity|].
    by rewrite Hnil, app_nil_r.
  - destruct Herr as (Hw & _). specialize (Hw copyBufferSize_pos).
    case_decide as Hp.
    + destruct dst as [s log]. rewrite Write_Logged.
      destruct (Hacc s p) as (s' & ->).
      rewrite decide_False by lia. rewrite decide_False by lia.
      destruct (IH (mkLogged s' (log ++ [p])) src1
                  (int64 (written + int64 (len p))) ltac:(lia))
        as (n & dst' & src' & -> & Hlog & Hnil & Hfin').
      eexists _, _, _. rewrite <- Hfin. split; [reflexivity|].
      simpl in *. rewrite Hlog, Hrem, concat_app. simpl.
      rewrite app_nil_r, <- app_assoc. by rewrite Hfin'.
    + assert (p = []) as -> by (destruct p; [done|unfold len in Hp; simpl in Hp; lia]).
      destruct (IH dst src1 written ltac:(lia))
        as (n & dst' & src' & -> & Hlog & Hnil & Hfin').
      eexists _, _, _. rewrite <- Hfin. split; [reflexivity|].
      by rewrite Hlog, Hrem, Hfin'.
Qed.

Lemma Copy_accepting (dst : Logged W) src :
  accepts_all W →
  ∃ n dst' src',
    Copy dst src = (n, copy_error (final src), dst', src') ∧
    concat (delivered dst') = concat (delivered dst) ++ remaining src ∧
    remaining src' = [] ∧ final src' = final src.
Proof. intros. by apply copy_loop_accepting. Qed.

End CopyingLogged.

(** ** Push mode *)

(** The first statements of [Write] and [ReadFrom] on a buffer that holds a
    header: the length field and the type byte are read. *)
Ltac decode_header data b0 b3 b4 rest L HLv :=
  rewrite (slice_from_ok data 3), bind_Ret by lia;
  change (drop (Z.to_nat 3) data) with (b3 :: b4 :: rest);
  rewrite Uint16_value, bind_Ret, HLv;
  rewrite (int32_id L) by lia.

Ltac decode_rest data b0 rest :=
  rewrite (slice_from_ok data 5), bind_Ret by lia;
  change (drop (Z.to_nat 5) data) with rest;
  change (index data 0) with (Ret b0 : outcome byte); rewrite bind_Ret;
  unfold tlsrecordfrag.typeHandshake, tlsrecordfrag.maxRecordLength;
  change (1 ≪ 14) with 16384.

(** A buffer of five bytes or more starts with a header. *)
Ltac header_of data b0 b1 b2 b3 b4 rest :=
  destruct data as [|b0 [|b1 [|b2 [|b3 [|b4 rest]]]]];
  try (exfalso; unfold len in *; simpl in *; lia).

(** [Write] up to the slices of the payload, on a buffer that passes the
    four tests and is to be split. *)
Ltac push_attempt w data b0 b3 b4 rest L HLv :=
  unfold Write; rewrite decide_True by lia;
  rewrite (int32_id (len data)), (int32_id (prefixBytes w + 5)) by lia;
  rewrite decide_False by lia;
  decode_header data b0 b3 b4 rest L HLv;
  rewrite (int32_id (len data - 5)) by lia;
  decode_rest data b0 rest;
  rewrite (bool_decide_eq_false_2 (byte_val b0 ≠ 22)) by lia;
  rewrite (bool_decide_eq_false_2 (L > len data - 5)) by lia;
  rewrite (bool_decide_eq_false_2 (prefixBytes w = L)) by lia;
  rewrite (bool_decide_eq_false_2 (L > 16384)) by lia;
  cbn [orb];
  rewrite (int32_id (len data + 5)) by lia;
  rewrite make_ok, bind_Ret by lia;
  rewrite (slice_to_ok data 3), bind_Ret by lia.

Section PushMode.
Context {W : Type} `{!io.Writer W}.
Implicit Types (w : tlsRecordFragWriter W) (data : list byte).

(** A buffer that holds an eligible record whole is split, and the count
    of the sink is adjusted. *)
Lemma Write_split w data :
  len data < 2 ^ 31 - 5 →
  push_splits (prefixBytes w) data →
  Write w data =
  Ret (let '(n, err, w') :=
         writer_Write (set_prefixBytes 0 w) (split_record (prefixBytes w) data) in
       (adjust n, err, w')).
Proof.
  intros Hlen ((Ht & Hmax & Hoff) & Hwhole).
  pose proof (hdr_length_range data) as HL.
  unfold split_record.
  header_of data b0 b1 b2 b3 b4 rest.
  set (data := b0 :: b1 :: b2 :: b3 :: b4 :: rest) in *.
  assert (Hd : len data = 5 + len rest) by (unfold len; simpl; lia).
  assert (HT : byte_val b0 = 22) by exact Ht. clear Ht.
  set (L := hdr_length data) in *.
  assert (HLv : byte_val b3 * 256 + byte_val b4 = L) by reflexivity.
  push_attempt w data b0 b3 b4 rest L HLv.
  change (take (Z.to_nat 3) data) with [b0; b1; b2].
  rewrite (slice_to_ok rest), bind_Ret by lia.
  rewrite (slice_ok rest), bind_Ret by lia.
  set (off := prefixBytes w) in *.
  set (r1 := take (Z.to_nat off) rest).
  set (r2 := take (Z.to_nat (L - off)) (drop (Z.to_nat off) rest)).
  assert (Hr1 : len r1 = off) by (subst r1; len_solve).
  assert (Hr2 : len r2 = L - off) by (subst r2; len_solve).
  rewrite Hr2, !uint16_id by lia.
  rewrite (int32_id (5 + off)), (int32_id (5 + 3 + off)),
    (int32_id (5 + 5 + off)), (int32_id (5 + 5 + L)) by lia.
  rewrite copy_at_fill, bind_Ret by len_solve.
  rewrite PutUint16_at_fill, bind_Ret by len_solve.
  rewrite copy_at_fill, bind_Ret by len_solve.
  rewrite copy_at_fill, bind_Ret by len_solve.
  rewrite PutUint16_at_fill, bind_Ret by len_solve.
  rewrite copy_at_fill, bind_Ret by len_solve.
  assert (Hspec :
    (take 3 data ++ u16 off) ++
    take (Z.to_nat off) (take (Z.to_nat L) (drop 5 data)) ++
    (take 3 data ++ u16 (L - off)) ++
    drop (Z.to_nat off) (take (Z.to_nat L) (drop 5 data)) ++
    drop (5 + Z.to_nat L) data
    = (((((([] ++ [b0; b1; b2]) ++ u16 off) ++ r1) ++ [b0; b1; b2]) ++
       u16 (L - off)) ++ r2) ++ drop (Z.to_nat L) rest).
  { change (take 3 data) with [b0; b1; b2]. change (drop 5 data) with rest.
    change (drop (5 + Z.to_nat L) data) with (drop (Z.to_nat L) rest).
    subst r1 r2. rewrite take_take, take_drop_commute.
    replace (Z.to_nat off `min` Z.to_nat L)%nat with (Z.to_nat off) by lia.
    replace (Z.to_nat off + Z.to_nat (L - off))%nat with (Z.to_nat L) by lia.
    by rewrite <- !app_assoc. }
  rewrite Hspec. clear Hspec.
  case_bool_decide as Hmulti.
  - rewrite (slice_from_ok rest), bind_Ret by lia.
    rewrite copy_at_fill_exact, bind_Ret by len_solve.
    by destruct (writer_Write _ _) as [[n e] w'].
  - rewrite bind_Ret, blank_nil by len_solve.
    rewrite (drop_ge rest), app_nil_r by len_solve.
    by destruct (writer_Write _ _) as [[n e] w'].
Qed.

(** C3 (the code departs from it). With an offset above the length field
    of a handshake record of at most 16384 bytes, in a buffer longer than
    offset + 5, push mode does not forward the buffer: the slice
    [remainder[prefixBytes:recordLength]] has its lower bound above its
    upper bound, and [Write] panics before anything reaches the sink. *)
Theorem Write_offset_above_length_panics w data :
  len data < 2 ^ 31 - 5 →
  push_faults (prefixBytes w) data →
  Write w data = Panic SliceBounds.
Proof.
  intros Hlen (Ht & Hmax & Hoff & Hlong).
  pose proof (hdr_length_range data) as HL.
  header_of data b0 b1 b2 b3 b4 rest.
  set (data := b0 :: b1 :: b2 :: b3 :: b4 :: rest) in *.
  assert (Hd : len data = 5 + len rest) by (unfold len; simpl; lia).
  assert (HT : byte_val b0 = 22) by exact Ht. clear Ht.
  set (L := hdr_length data) in *.
  assert (HLv : byte_val b3 * 256 + byte_val b4 = L) by reflexivity.
  push_attempt w data b0 b3 b4 rest L HLv.
  rewrite (slice_to_ok rest), bind_Ret by lia.
  by rewrite (slice_inverted rest) by lia.
Qed.

(** Everything else goes to the sink as it came. *)
Lemma Write_passthrough w data :
  len data < 2 ^ 31 → - 2 ^ 31 ≤ prefixBytes w < 2 ^ 31 - 5 →
  ¬ push_splits (prefixBytes w) data →
  ¬ push_faults (prefixBytes w) data →
  Write w data = Ret (writer_Write (disarm w) data).
Proof.
  intros Hlen Hoff Hns Hnf. unfold Write, disarm.
  case_decide as Harmed; [|done].
  rewrite (int32_id (len data)), (int32_id (prefixBytes w + 5))
    by (pose proof (len_nonneg data); lia).
  case_decide as Hshort; [done|].
  pose proof (hdr_length_range data) as HL.
  unfold push_splits, push_faults, eligible in *.
  header_of data b0 b1 b2 b3 b4 rest.
  set (data := b0 :: b1 :: b2 :: b3 :: b4 :: rest) in *.
  assert (Hd : len data = 5 + len rest) by (unfold len; simpl; lia).
  change (hdr_type data) with (byte_val b0) in *.
  set (L := hdr_length data) in *.
  assert (HLv : byte_val b3 * 256 + byte_val b4 = L) by reflexivity.
  decode_header data b0 b3 b4 rest L HLv.
  rewrite (int32_id (len data - 5)) by lia.
  decode_rest data b0 rest.
  repeat case_bool_decide; cbn [orb]; try reflexivity; exfalso; lia.
Qed.

(** A length field above [maxRecordLength] is never split, whatever the
    offset and however long the buffer. *)
Lemma Write_oversized w data :
  5 ≤ len data → 16384 < hdr_length data →
  Write w data = Ret (writer_Write (disarm w) data).
Proof.
  intros Hlen Hover. unfold Write, disarm.
  case_decide as Harmed; [|done].
  case_decide as Hshort; [done|].
  pose proof (hdr_length_range data) as HL.
  header_of data b0 b1 b2 b3 b4 rest.
  set (data := b0 :: b1 :: b2 :: b3 :: b4 :: rest) in *.
  set (L := hdr_length data) in *.
  assert (HLv : byte_val b3 * 256 + byte_val b4 = L) by reflexivity.
  decode_header data b0 b3 b4 rest L HLv.
  decode_rest data b0 rest.
  rewrite (bool_decide_eq_true_2 (L > 16384)) by lia.
  by rewrite !orb_true_r.
Qed.

End PushMode.


(** ** Pull mode *)

(** The statements of [ReadFrom] between the reads: the header is decoded,
    the buffer is made and the first header is laid out, up to the read of
    the first payload slot; then the second header is laid out, up to the
    read of the second slot. *)
Ltac pull_decode b0 b1 b2 b3 b4 L HLv :=
  change (slice_from [b0; b1; b2; b3; b4] 3) with (Ret [b3; b4] : outcome _);
  rewrite bind_Ret, Uint16_value, bind_Ret, HLv, (int32_id L) by lia;
  change (index [b0; b1; b2; b3; b4] 0) with (Ret b0 : outcome byte);
  rewrite bind_Ret; unfold typeHandshake, maxRecordLength;
  change (1 ≪ 14) with 16384.

Ltac pull_first_slot b0 b1 b2 b3 b4 L off :=
  rewrite decide_False by lia; rewrite decide_False by lia;
  rewrite (int32_id (L + 10)), (int32_id (5 + off)),
    (int32_id (10 + off)), (int32_id (L - off)), !uint16_id by lia;
  rewrite make_ok, bind_Ret by lia;
  change (slice_to [b0; b1; b2; b3; b4] 3) with (Ret [b0; b1; b2] : outcome _);
  rewrite bind_Ret;
  rewrite copy_at_fill, bind_Ret by len_solve;
  rewrite PutUint16_at_fill, bind_Ret by len_solve;
  rewrite slice_ok, bind_Ret by len_solve;
  match goal with |- context [io.ReadFull _ (length ?s)] =>
    replace (length s) with (Z.to_nat off) by len_solve end.

Ltac pull_second_slot L off :=
  rewrite copy_at_fill, bind_Ret by len_solve;
  rewrite copy_at_fill, bind_Ret by len_solve;
  rewrite PutUint16_at_fill, bind_Ret by len_solve;
  rewrite slice_from_ok, bind_Ret by len_solve;
  match goal with |- context [io.ReadFull _ (length ?s)] =>
    replace (length s) with (Z.to_nat (L - off)) by len_solve end.

Section PullMode.
Context {W : Type} `{!io.Writer W}.
Implicit Types (w : tlsRecordFragWriter W) (source : io.Source).

(** A writer whose offset is not positive copies the source. *)
Lemma ReadFrom_disarmed w source :
  prefixBytes w ≤ 0 →
  ReadFrom w source = Ret (writer_Copy w source).
Proof.
  intros Hoff. unfold ReadFrom. rewrite decide_False by lia.
  unfold writer_Copy.
  destruct (io.Copy (writer w) source) as [[[n err] s] src'] eqn:HC.
  apply Copy_range in HC.
  by rewrite Z.add_0_l, int64_id.
Qed.

(** C4 (the code departs from it). When the source of an armed writer
    holds fewer than five bytes, the header read fails; [ReadFrom] returns
    zero and the error of [io.ReadFull] as it is, but it returns the writer
    as it was: [prefixBytes] keeps its positive value, and the bytes read
    are gone. *)
Theorem ReadFrom_short_header_stays_armed w source :
  0 < prefixBytes w →
  (length (io.remaining source) < 5)%nat →
  ∃ source',
    ReadFrom w source =
      Ret (0, Some (io.short_read_error (io.final source) (io.remaining source)),
           w, source') ∧
    io.remaining source' = [].
Proof.
  intros Harmed Hshort. unfold ReadFrom. rewrite decide_True by done.
  destruct (ReadFull_short source 5 Hshort) as (src' & -> & Hnil & _).
  by exists src'.
Qed.

(** The header is read: what [ReadFrom] goes on with. *)
Lemma ReadFrom_header w source :
  0 < prefixBytes w →
  (5 ≤ length (io.remaining source))%nat →
  ∃ source',
    io.remaining source' = drop 5 (io.remaining source) ∧
    io.final source' = io.final source ∧
    io.ReadFull source 5 = (take 5 (io.remaining source), None, source') ∧
    list_inserts 0 (take 5 (io.remaining source)) (replicate 5 Byte.x00)
    = take 5 (io.remaining source).
Proof.
  intros Harmed Hlong.
  destruct (ReadFull_enough source 5 Hlong) as (src' & HR & Hrem & Hfin).
  exists src'. repeat split; [done..|].
  rewrite <- (app_nil_r (take 5 _)) at 1. apply list_inserts_0_l.
  rewrite length_take, length_replicate. lia.
Qed.

(** A record that is not eligible: the header, then the rest of the
    source, go to the sink through [dontFrag]. *)
Lemma ReadFrom_dontFrag w source :
  0 < prefixBytes w →
  (5 ≤ length (io.remaining source))%nat →
  ¬ eligible (prefixBytes w) (io.remaining source) →
  ∃ source',
    io.remaining source' = drop 5 (io.remaining source) ∧
    io.final source' = io.final source ∧
    ReadFrom w source = Ret (dontFrag w (take 5 (io.remaining source)) source').
Proof.
  intros Harmed Hlong Hne.
  destruct (ReadFrom_header w source Harmed Hlong)
    as (src' & Hrem & Hfin & HR & Hhdr).
  exists src'. repeat split; [done..|].
  unfold ReadFrom. rewrite decide_True, HR, Hhdr by done. clear HR Hhdr.
  pose proof (hdr_length_range (io.remaining source)) as HL.
  unfold eligible in Hne.
  destruct (io.remaining source) as [|b0 [|b1 [|b2 [|b3 [|b4 rest]]]]];
    try (simpl in Hlong; lia).
  set (input := b0 :: b1 :: b2 :: b3 :: b4 :: rest) in *.
  change (take 5 input) with [b0; b1; b2; b3; b4].
  change (hdr_type input) with (byte_val b0) in *.
  set (L := hdr_length input) in *.
  assert (HLv : byte_val b3 * 256 + byte_val b4 = L) by reflexivity.
  pull_decode b0 b1 b2 b3 b4 L HLv.
  case_decide; [done|]. case_decide; [done|]. exfalso. lia.
Qed.


(** An eligible record that the source holds whole: the two fragments go
    to the sink in one write, then the rest of the source is copied. *)
Lemma ReadFrom_split w source :
  let input := io.remaining source in
  let L := hdr_length input in
  eligible (prefixBytes w) input →
  (5 + Z.to_nat L ≤ length input)%nat →
  ∃ source',
    io.remaining source' = drop (5 + Z.to_nat L) input ∧
    io.final source' = io.final source ∧
    ReadFrom w source =
      Ret (let '(tmp, err, w1) := writer_Write w (fragments (prefixBytes w) input) in
           let w1 := set_prefixBytes 0 w1 in
           let written := int64 (adjust tmp) in
           match err with
           | Some e => (written, Some e, w1, source')
           | None =>
             let '(n, err, w2, source'') := writer_Copy w1 source' in
             (int64 (written + n), err, w2, source'')
           end).
Proof.
  intros input L (Ht & Hmax & Hoff) Hwhole.
  destruct (ReadFrom_header w source) as (src1 & Hrem1 & Hfin1 & HR & Hhdr);
    [lia|fold input; lia|].
  unfold ReadFrom. rewrite decide_True, HR, Hhdr by lia. clear HR Hhdr.
  pose proof (hdr_length_range input) as HL.
  unfold fragments. fold input in Hrem1 |- *. fold L.
  set (off := prefixBytes w) in *. clearbody input.
  header_of input b0 b1 b2 b3 b4 rest.
  set (input := b0 :: b1 :: b2 :: b3 :: b4 :: rest) in *.
  assert (Hd : len input = 5 + len rest) by (unfold len; simpl; lia).
  change (take 5 input) with [b0; b1; b2; b3; b4].
  change (take 3 input) with [b0; b1; b2].
  change (drop 5 input) with rest in *.
  change (hdr_type input) with (byte_val b0) in *.
  assert (HLv : byte_val b3 * 256 + byte_val b4 = L) by reflexivity.
  pull_decode b0 b1 b2 b3 b4 L HLv.
  fold L in Hmax, Hoff, HL.
  pull_first_slot b0 b1 b2 b3 b4 L off.
  destruct (ReadFull_enough src1 (Z.to_nat off))
    as (src2 & -> & Hrem2 & Hfin2); [rewrite Hrem1; len_solve|].
  rewrite Hrem1 in *.
  set (r1 := take (Z.to_nat off) rest) in *.
  assert (Hr1 : len r1 = off) by (subst r1; len_solve).
  rewrite Hr1.
  pull_second_slot L off.
  destruct (ReadFull_enough src2 (Z.to_nat (L - off)))
    as (src3 & -> & Hrem3 & Hfin3); [rewrite Hrem2; len_solve|].
  rewrite Hrem2 in *.
  set (r2 := take (Z.to_nat (L - off)) (drop (Z.to_nat off) rest)) in *.
  assert (Hr2 : len r2 = L - off) by (subst r2; len_solve).
  rewrite copy_at_fill_exact, bind_Ret by len_solve.
  exists src3. split; [|split; [congruence|]].
  { change (drop (5 + Z.to_nat L) input) with (drop (Z.to_nat L) rest).
    rewrite Hrem3, drop_drop. f_equal. lia. }
  assert (Hbuf :
    ([b0; b1; b2] ++ u16 off) ++
    take (Z.to_nat off) (take (Z.to_nat L) rest) ++
    ([b0; b1; b2] ++ u16 (L - off)) ++
    drop (Z.to_nat off) (take (Z.to_nat L) rest)
    = ((((([] ++ [b0; b1; b2]) ++ u16 off) ++ r1) ++ [b0; b1; b2]) ++
       u16 (L - off)) ++ r2).
  { subst r1 r2. rewrite take_take, take_drop_commute.
    replace (Z.to_nat off `min` Z.to_nat L)%nat with (Z.to_nat off) by lia.
    replace (Z.to_nat off + Z.to_nat (L - off))%nat with (Z.to_nat L) by lia.
    by rewrite <- !app_assoc. }
  rewrite Hbuf.
  by destruct (writer_Write w _) as [[tmp [e|]] w1].
Qed.


(** C9. When the payload read of an eligible record falls short, in either
    slot, [ReadFrom] returns zero and the error of [io.ReadFull], the sink
    is handed nothing (the writer comes back with its sink untouched and
    its offset cleared), and the source is used up: the header and the
    payload bytes read so far are dropped. *)
Theorem ReadFrom_payload_read_failure w source :
  let input := io.remaining source in
  let L := hdr_length input in
  eligible (prefixBytes w) input →
  (5 ≤ length input < 5 + Z.to_nat L)%nat →
  ∃ source',
    ReadFrom w source =
      Ret (0, Some (payload_read_error (prefixBytes w) source),
           set_prefixBytes 0 w, source') ∧
    io.remaining source' = [].
Proof.
  intros input L (Ht & Hmax & Hoff) Hpart.
  destruct (ReadFrom_header w source) as (src1 & Hrem1 & Hfin1 & HR & Hhdr);
    [lia|fold input; lia|].
  unfold ReadFrom. rewrite decide_True, HR, Hhdr by lia. clear HR Hhdr.
  pose proof (hdr_length_range input) as HL.
  unfold payload_read_error. fold input in Hrem1 |- *. fold L.
  set (off := prefixBytes w) in *. clearbody input.
  header_of input b0 b1 b2 b3 b4 rest.
  set (input := b0 :: b1 :: b2 :: b3 :: b4 :: rest) in *.
  assert (Hd : len input = 5 + len rest) by (unfold len; simpl; lia).
  change (take 5 input) with [b0; b1; b2; b3; b4].
  change (drop 5 input) with rest in *.
  change (hdr_type input) with (byte_val b0) in *.
  assert (HLv : byte_val b3 * 256 + byte_val b4 = L) by reflexivity.
  pull_decode b0 b1 b2 b3 b4 L HLv.
  fold L in Hmax, Hoff, HL.
  pull_first_slot b0 b1 b2 b3 b4 L off.
  case_decide as Hfirst.
  - destruct (ReadFull_short src1 (Z.to_nat off))
      as (src2 & -> & Hrem2 & Hfin2); [rewrite Hrem1; len_solve|].
    rewrite Hrem1, Hfin1.
    rewrite copy_at_ok, bind_Ret by len_solve. by exists src2.
  - destruct (ReadFull_enough src1 (Z.to_nat off))
      as (src2 & -> & Hrem2 & Hfin2); [rewrite Hrem1; len_solve|].
    rewrite Hrem1 in *.
    set (r1 := take (Z.to_nat off) rest) in *.
    assert (Hr1 : len r1 = off) by (subst r1; len_solve).
    rewrite Hr1.
    pull_second_slot L off.
    destruct (ReadFull_short src2 (Z.to_nat (L - off)))
      as (src3 & -> & Hrem3 & Hfin3); [rewrite Hrem2; len_solve|].
    rewrite Hrem2, Hfin2, Hfin1.
    rewrite copy_at_ok, bind_Ret by len_solve. by exists src3.
Qed.

End PullMode.


Import config.

(** ** Runes and prefixes *)

Section Prefix.

Lemma land_255 r : Z.land r 0xFF = r ↔ 0 ≤ r ≤ 255.
Proof.
change (Z.land r 0xFF) with (Z.land r (Z.ones 8)).
rewrite Z.land_ones by lia.
change (2 ^ 8) with 256. split.
- intros Heq. pose proof (Z.mod_pos_bound r 256 eq_refl). lia.
- intros. apply Z.mod_small. lia.
Qed.

Lemma decoderune_nonneg s : 0 ≤ (decoderune s).1.
Proof.
unfold decoderune.
repeat (first [case_bool_decide | case_match]); cbn [fst];
  first [lia | unfold runeError; lia].
Qed.

#[local] Arguments decoderune : simpl never.

Lemma range_runes_nonneg fuel s : Forall (λ r, 0 ≤ r) (range_runes fuel s).
Proof.
revert s. induction fuel as [|fuel IH]; intros [|c s]; simpl; try done.
case_bool_decide.
- constructor; [apply byte_val_range|apply IH].
- pose proof (decoderune_nonneg (c :: s)).
  destruct (decoderune (c :: s)) as [r rest]. by constructor.
Qed.

Lemma runes_of_nonneg s : Forall (λ r, 0 ≤ r) (runes_of s).
Proof. apply range_runes_nonneg. Qed.

Lemma runes_of_nil s : runes_of s = [] ↔ s = [].
Proof.
unfold runes_of. destruct s as [|c s]; simpl; [done|].
split; [|done]. case_bool_decide; [done|]. by destruct (decoderune _).
Qed.

(** The loop fills the blank buffer with one byte for each rune. *)
Lemma parse_loop_ok pre runes :
Forall (λ r, 0 ≤ r ≤ 255) runes →
parse_loop (length pre) runes (pre ++ replicate (length runes) Byte.x00)
= Ok (pre ++ (byte_of <$> runes)).
Proof.
revert pre. induction runes as [|r runes IH]; intros pre Hall; simpl.
{ done. }
inversion_clear Hall as [|? ? Hr Hrest].
rewrite decide_False by (intros Hne; by apply Hne, land_255).
replace (length pre) with (length pre + 0)%nat at 2 by lia.
rewrite insert_app_r. simpl.
specialize (IH (pre ++ [byte_of r]) Hrest).
rewrite length_app, <- !app_assoc in IH. simpl in IH.
by replace (S (length pre)) with (length pre + 1)%nat by lia.
Qed.

(** It stops at the first rune that is not a byte. *)
Lemma parse_loop_out_of_range i runes rawBytes :
Forall (λ r, 0 ≤ r) runes →
¬ Forall (λ r, r ≤ 0xFF) runes →
∃ r, parse_loop i runes rawBytes = Failed (CharacterOutOfRange r) ∧
     r ∈ runes ∧ 0xFF < r.
Proof.
revert i rawBytes.
induction runes as [|r runes IH]; intros i rawBytes Hpos Hbad; simpl.
{ by destruct Hbad. }
inversion_clear Hpos as [|? ? Hr Hrest].
case_decide as Hland.
- exists r. repeat split; [apply list_elem_of_here|].
  rewrite land_255 in Hland. lia.
- destruct (IH (S i) (<[i:=byte_of r]> rawBytes) Hrest) as (r' & ? & ? & ?).
  + intros Hall. apply Hbad. constructor; [|done].
    apply land_255 in Hland. lia.
  + exists r'. repeat split; [done|by apply list_elem_of_further|done].
Qed.

Lemma parseStringPrefix_ok s :
Forall (λ r, r ≤ 0xFF) (runes_of s) →
parseStringPrefix s = Ok (byte_of <$> runes_of s).
Proof.
intros Hall. unfold parseStringPrefix.
apply (parse_loop_ok []).
pose proof (runes_of_nonneg s) as Hpos.
rewrite Forall_forall in *. intros r Hr.
specialize (Hall r Hr). specialize (Hpos r Hr). simpl in *. lia.
Qed.

Lemma parseStringPrefix_out_of_range s :
¬ Forall (λ r, r ≤ 0xFF) (runes_of s) →
∃ r, parseStringPrefix s = Failed (CharacterOutOfRange r) ∧
     r ∈ runes_of s ∧ 0xFF < r.
Proof.
intros. apply parse_loop_out_of_range; [apply runes_of_nonneg|done].
Qed.

(** The value of byte [i] of the prefix is the code point of rune [i]. *)
Lemma byte_val_runes runes :
Forall (λ r, 0 ≤ r ≤ 255) runes → byte_val <$> (byte_of <$> runes) = runes.
Proof.
induction 1 as [|r runes Hr _ IH]; [done|].
rewrite !fmap_cons, IH, byte_val_of, Z.mod_small by lia. done.
Qed.

End Prefix.

(** ** The writer and its sink *)

Lemma bind_Ret_inv {A B} (m : outcome A) (f : A → outcome B) (b : B) :
  m ≫= f = Ret b → ∃ a, m = Ret a ∧ f a = Ret b.
Proof. destruct m as [a|r]; [eauto|discriminate]. Qed.

Section WriterAndSink.
Context {W : Type} `{!io.Writer W}.
Implicit Types (w : tlsRecordFragWriter W) (data : list byte).

Lemma writer_Write_prefixBytes w p n err w' :
  writer_Write w p = (n, err, w') → prefixBytes w' = prefixBytes w.
Proof.
  unfold writer_Write. destruct (io.Write (writer w) p) as [[? ?] ?].
  by intros [= _ _ <-].
Qed.

Lemma disarm_prefixBytes w :
  prefixBytes (disarm w) ≤ 0 ∧ (0 ≤ prefixBytes w → prefixBytes (disarm w) = 0).
Proof. unfold disarm. case_decide; simpl; lia. Qed.

(** Whatever the buffer, a [Write] that returns leaves the offset cleared. *)
Lemma Write_prefixBytes w data r w1 :
  Write w data = Ret (r, w1) → prefixBytes w1 = prefixBytes (disarm w).
Proof.
  unfold Write, disarm. intros HW.
  case_decide as Harmed.
  - case_decide as Hshort.
    { destruct r as [n err]. injection HW as HW.
      by apply writer_Write_prefixBytes in HW. }
    repeat (apply bind_Ret_inv in HW as (? & _ & HW)).
    destruct (_ || _).
    { destruct r as [n err]. injection HW as HW.
      by apply writer_Write_prefixBytes in HW. }
    repeat (apply bind_Ret_inv in HW as (? & _ & HW)).
    destruct (writer_Write _ _) as [[n err] w'] eqn:HWW.
    apply writer_Write_prefixBytes in HWW.
    by injection HW as _ <-.
  - destruct r as [n err]. injection HW as HW.
    by apply writer_Write_prefixBytes in HW.
Qed.

(** A writer whose offset is not positive forwards every buffer. *)
Lemma Write_disarmed w data :
  prefixBytes w ≤ 0 → Write w data = Ret (writer_Write w data).
Proof. intros. unfold Write. by rewrite decide_False by lia. Qed.

Lemma Writes_disarmed w calls :
  prefixBytes w ≤ 0 →
  Writes w calls =
  Ret (let '(results, s) := sink_Writes (writer w) calls in
       (results, mkWriter s (prefixBytes w))).
Proof.
  revert w. induction calls as [|data calls IH]; intros w Hoff; simpl.
  { by destruct w. }
  rewrite Write_disarmed by done. unfold writer_Write.
  destruct (io.Write (writer w) data) as [[n err] s]. rewrite bind_Ret.
  simpl. rewrite IH by done. simpl.
  by destruct (sink_Writes s calls) as [results s'].
Qed.

End WriterAndSink.

Section LoggedSink.
Context {S : Type} `{!io.Writer S}.
Implicit Types (w : tlsRecordFragWriter (io.Logged S)).

(** The log of a sink grows by the buffers it is handed, in order. *)
Lemma sink_Writes_delivered (s : io.Logged S) calls results s' :
  sink_Writes s calls = (results, s') →
  io.delivered s' = io.delivered s ++ calls.
Proof.
  revert s results s'. induction calls as [|data calls IH];
    intros [s log] results s'; simpl.
  { intros [= _ <-]. by rewrite app_nil_r. }
  rewrite Write_Logged. destruct (io.Write s data) as [[n err] s1].
  destruct (sink_Writes _ calls) as [rs s2] eqn:Hrest.
  apply IH in Hrest. intros [= _ <-]. rewrite Hrest. simpl.
  by rewrite <- app_assoc.
Qed.

Lemma writer_Write_Logged w p :
  writer_Write w p =
  (let '(n, err, s') := io.Write (io.inner (writer w)) p in
   (n, err,
    mkWriter (io.mkLogged s' (io.delivered (writer w) ++ [p])) (prefixBytes w))).
Proof.
  destruct w as [[s log] off]. unfold writer_Write. simpl.
  rewrite Write_Logged. by destruct (io.Write s p) as [[n err] s'].
Qed.

Lemma writer_Write_accepting w p :
  io.accepts_all S →
  ∃ s', writer_Write w p =
        (len p, None,
         mkWriter (io.mkLogged s' (io.delivered (writer w) ++ [p]))
           (prefixBytes w)).
Proof.
  intros Hacc. rewrite writer_Write_Logged.
  destruct (Hacc (io.inner (writer w)) p) as (s' & ->). by exists s'.
Qed.

Lemma writer_Copy_accepting w source :
  io.accepts_all S →
  ∃ n w' source',
    writer_Copy w source = (n, io.copy_error (io.final source), w', source') ∧
    concat (io.delivered (writer w')) =
      concat (io.delivered (writer w)) ++ io.remaining source ∧
    prefixBytes w' = prefixBytes w.
Proof.
  intros Hacc. unfold writer_Copy.
  destruct (Copy_accepting (writer w) source Hacc)
    as (n & dst' & src' & -> & Hlog & _).
  by eexists _, _, _.
Qed.

Lemma dontFrag_accepting w first source :
  io.accepts_all S →
  ∃ n err w' source',
    dontFrag w first source = (n, err, w', source') ∧
    concat (io.delivered (writer w')) =
      concat (io.delivered (writer w)) ++ first ++ io.remaining source ∧
    prefixBytes w' = 0.
Proof.
  intros Hacc. unfold dontFrag.
  destruct (writer_Write_accepting w first Hacc) as (s' & ->).
  match goal with |- context [writer_Copy ?w1 source] =>
    destruct (writer_Copy_accepting w1 source Hacc)
      as (n & w' & src' & -> & Hlog & Hoff) end.
  eexists _, _, _, _. split; [reflexivity|]. split; [|done].
  rewrite Hlog. simpl. by rewrite concat_app, <- app_assoc; simpl; rewrite app_nil_r.
Qed.

End LoggedSink.

(** ** Content preservation *)

(** What a split looks like: five bytes more, two headers with the type
    and version bytes of the original whose length fields add up to the
    original one, and the payload and what follows it unchanged. *)
Lemma split_record_shape off data :
  eligible off data →
  (5 + Z.to_nat (hdr_length data) ≤ length data)%nat →
  let out := split_record off data in
  let second := drop (5 + Z.to_nat off) out in
  length out = (length data + 5)%nat ∧
  take 3 out = take 3 data ∧ hdr_length out = off ∧
  take 3 second = take 3 data ∧
  hdr_length second = hdr_length data - off ∧
  take (Z.to_nat off) (drop 5 out) ++ drop 5 second = drop 5 data.
Proof.
  intros (Ht & Hmax & Hoff) Hwhole.
  pose proof (hdr_length_range data) as HL.
  unfold split_record. set (L := hdr_length data) in *.
  clearbody L.
  header_of data b0 b1 b2 b3 b4 rest.
  change (take 3 (b0 :: b1 :: b2 :: b3 :: b4 :: rest)) with [b0; b1; b2].
  change (drop 5 (b0 :: b1 :: b2 :: b3 :: b4 :: rest)) with rest.
  change (drop (5 + Z.to_nat L) (b0 :: b1 :: b2 :: b3 :: b4 :: rest))
    with (drop (Z.to_nat L) rest).
  simpl in Hwhole.
  set (p1 := take (Z.to_nat off) (take (Z.to_nat L) rest)).
  set (p2 := drop (Z.to_nat off) (take (Z.to_nat L) rest)).
  set (trailing := drop (Z.to_nat L) rest).
  assert (Hp1 : length p1 = Z.to_nat off) by (subst p1; len_solve).
  assert (Hsecond :
    drop (5 + Z.to_nat off)
      (([b0; b1; b2] ++ u16 off) ++ p1 ++
       ([b0; b1; b2] ++ u16 (L - off)) ++ p2 ++ trailing)
    = ([b0; b1; b2] ++ u16 (L - off)) ++ p2 ++ trailing).
  { rewrite (app_assoc _ p1). apply drop_app_length'. len_solve. }
  cbv zeta. rewrite Hsecond.
  repeat split.
  - subst p2 trailing. len_solve.
  - apply hdr_length_make. lia.
  - apply hdr_length_make. lia.
  - change (drop 5 (([b0; b1; b2] ++ u16 off) ++ ?x)) with x.
    rewrite take_app_length' by done.
    change (drop 5 (([b0; b1; b2] ++ u16 (L - off)) ++ ?x)) with x.
    subst p1 p2 trailing.
    by rewrite app_assoc, take_drop, take_drop.
Qed.

Section ContentPreservation.
Context {S : Type} `{!io.Writer S}.
Implicit Types (w : tlsRecordFragWriter (io.Logged S)).

(** Push mode hands the sink one buffer: the input, or its split. *)
Lemma Write_delivers w data :
  let off := prefixBytes w in
  len data < 2 ^ 31 - 5 → - 2 ^ 31 ≤ off < 2 ^ 31 - 5 →
  ¬ push_faults off data →
  ∃ n err w',
    Write w data = Ret (n, err, w') ∧
    io.delivered (writer w') = io.delivered (writer w) ++
      [if decide (push_splits off data) then split_record off data else data].
Proof.
  intros off Hlen Hoff Hnf. case_decide as Hsplit.
  - rewrite Write_split by (done || lia).
    rewrite writer_Write_Logged.
    destruct (io.Write _ _) as [[n err] s']. by eexists _, _, _.
  - rewrite Write_passthrough by (done || lia).
    rewrite writer_Write_Logged.
    destruct (io.Write _ _) as [[n err] s']. eexists _, _, _.
    split; [reflexivity|]. simpl. unfold disarm. by case_decide.
Qed.

(** Pull mode, with a sink that takes everything and a source that holds
    the header and, for a split, the whole record. *)
Lemma ReadFrom_delivers w source :
  let off := prefixBytes w in
  let input := io.remaining source in
  io.accepts_all S →
  (0 < off →
   (5 ≤ length input)%nat ∧
   (eligible off input → (5 + Z.to_nat (hdr_length input) ≤ length input)%nat)) →
  ∃ n err w' source',
    ReadFrom w source = Ret (n, err, w', source') ∧
    concat (io.delivered (writer w')) = concat (io.delivered (writer w)) ++
      (if decide (eligible off input) then split_record off input else input).
Proof.
  intros off input Hacc Hsrc.
  destruct (decide (0 < off)) as [Harmed|Hdis].
  - destruct (Hsrc Harmed) as (Hhdr & Hrec). case_decide as Hel.
    + destruct (ReadFrom_split w source Hel (Hrec Hel))
        as (src' & Hrem & _ & ->).
      destruct (writer_Write_accepting w
                  (fragments (prefixBytes w) (io.remaining source)) Hacc)
        as (s' & ->). cbv beta iota zeta.
      match goal with |- context [writer_Copy ?w1 src'] =>
        destruct (writer_Copy_accepting w1 src' Hacc)
          as (n & w' & src'' & -> & Hlog & _) end.
      eexists _, _, _, _. split; [reflexivity|].
      rewrite Hlog, Hrem. simpl. rewrite concat_app. simpl.
      unfold fragments, split_record, off, input.
      by rewrite app_nil_r, <- !app_assoc.
    + destruct (ReadFrom_dontFrag w source Harmed Hhdr Hel)
        as (src' & Hrem & _ & ->).
      destruct (dontFrag_accepting w (take 5 (io.remaining source)) src' Hacc)
        as (n & err & w' & src'' & -> & Hlog & _).
      eexists _, _, _, _. split; [reflexivity|].
      by rewrite Hlog, Hrem, take_drop.
  - rewrite ReadFrom_disarmed by lia.
    destruct (writer_Copy_accepting w source Hacc)
      as (n & w' & src' & -> & Hlog & _).
    eexists _, _, _, _. split; [reflexivity|].
    rewrite decide_False; [done|]. unfold eligible. fold off. lia.
Qed.

(** C1 (as amended). Content preservation. Push mode, for a buffer and an
    offset below 2^31 - 5 and outside the buffers on which [Write] slices
    out of range: the one buffer handed to the sink is the input when no
    split occurs and the split of the input when one does. Pull mode, for
    a sink that takes every write whole and a source that holds the header
    and, for a split, the whole record: the concatenation of what the sink
    is handed is the source's bytes, or their split. A split is five bytes
    longer than the input; its two headers have the type and version bytes
    of the original and length fields that add up to the original one, and
    the payload and the bytes that follow the record are unchanged. *)
Theorem content_preservation :
  (∀ w data,
     let off := prefixBytes w in
     len data < 2 ^ 31 - 5 → - 2 ^ 31 ≤ off < 2 ^ 31 - 5 →
     ¬ push_faults off data →
     ∃ n err w',
       Write w data = Ret (n, err, w') ∧
       io.delivered (writer w') = io.delivered (writer w) ++
         [if decide (push_splits off data) then split_record off data
          else data]) ∧
  (∀ w source,
     let off := prefixBytes w in
     let input := io.remaining source in
     io.accepts_all S →
     (0 < off →
      (5 ≤ length input)%nat ∧
      (eligible off input →
       (5 + Z.to_nat (hdr_length input) ≤ length input)%nat)) →
     ∃ n err w' source',
       ReadFrom w source = Ret (n, err, w', source') ∧
       concat (io.delivered (writer w')) = concat (io.delivered (writer w)) ++
         (if decide (eligible off input) then split_record off input
          else input)) ∧
  (∀ off data,
     eligible off data →
     (5 + Z.to_nat (hdr_length data) ≤ length data)%nat →
     let out := split_record off data in
     let second := drop (5 + Z.to_nat off) out in
     length out = (length data + 5)%nat ∧
     take 3 out = take 3 data ∧ hdr_length out = off ∧
     take 3 second = take 3 data ∧
     hdr_length second = hdr_length data - off ∧
     take (Z.to_nat off) (drop 5 out) ++ drop 5 second = drop 5 data).
Proof.
  split; [exact Write_delivers|].
  split; [exact ReadFrom_delivers|exact split_record_shape].
Qed.

End ContentPreservation.

Import Examples Sinks.

(** A closed decidable proposition, by evaluation. *)
Ltac by_decide := apply (bool_decide_unpack _); vm_compute; exact I.

Lemma accept_all_accepts : io.accepts_all unit.
Proof. intros [] p. by exists tt. Defined.

Lemma content_preservation_witness :
  (∃ n err w',
     Write (fresh tt 4) record21 = Ret (n, err, w') ∧
     io.delivered (writer w') = [split_record 4 record21]) ∧
  (∃ n err w' source',
     ReadFrom (fresh tt 4) (source_of (record21 ++ [xff])) =
       Ret (n, err, w', source') ∧
     concat (io.delivered (writer w')) = split_record 4 (record21 ++ [xff])) ∧
  length (split_record 4 record21) = 26%nat.
Proof.
  destruct (@content_preservation unit _) as (Hpush & Hpull & Hshape).
  split; [|split].
  - apply (Hpush (fresh tt 4) record21); by_decide.
  - apply (Hpull (fresh tt 4) (source_of (record21 ++ [xff])));
      [exact accept_all_accepts|].
    intros _. split; [by_decide|]. intros _. by_decide.
  - apply (Hshape 4 record21); by_decide.
Defined.

(** C1, as stated, fails in pull mode: a source that ends inside the record
    is read and dropped, and the sink is handed nothing. *)
Lemma short_record_is_dropped :
  let source := source_of (take 8 record21) in
  ∃ w' source',
    ReadFrom (fresh tt 4) source = Ret (0, Some io.ErrUnexpectedEOF, w', source') ∧
    concat (io.delivered (writer w')) = [] ∧
    concat (io.delivered (writer w')) ≠ io.remaining source ∧
    length (concat (io.delivered (writer w'))) ≠
      (length (io.remaining source) + 5)%nat.
Proof.
  eexists _, _. split; [vm_compute; reflexivity|].
  split; [reflexivity|]. split; [discriminate|]. simpl. lia.
Qed.

Lemma Write_offset_above_length_panics_witness :
  Write (fresh tt 5) record4_and_more = Panic SliceBounds.
Proof.
  apply (Write_offset_above_length_panics (fresh tt 5) record4_and_more);
    by_decide.
Defined.

Lemma ReadFrom_short_header_stays_armed_witness :
  ∃ source',
    ReadFrom (fresh tt 4) (source_of (take 3 record21)) =
      Ret (0, Some io.ErrUnexpectedEOF, fresh tt 4, source') ∧
    io.remaining source' = [].
Proof.
  apply (ReadFrom_short_header_stays_armed (fresh tt 4)
           (source_of (take 3 record21))); by_decide.
Defined.

Lemma ReadFrom_payload_read_failure_witness :
  ∃ source',
    ReadFrom (fresh tt 4) (source_of (take 12 record21)) =
      Ret (0, Some io.ErrUnexpectedEOF, set_prefixBytes 0 (fresh tt 4), source') ∧
    io.remaining source' = [].
Proof.
  apply (ReadFrom_payload_read_failure (fresh tt 4)
           (source_of (take 12 record21))); by_decide.
Defined.

(** The other error paths clear the offset: a sink that refuses the split
    buffer, or the header of a record that is not split, leaves the writer
    with [prefixBytes = 0]. *)
Example write_error_disarms :
  Write (fresh Broken 4) record21 =
    Ret (0, Some (io.Err 1),
         mkWriter (io.mkLogged Broken [split_record 4 record21]) 0) ∧
  ReadFrom (fresh Broken 4) (source_of oversized) =
    Ret (0, Some (io.Err 1),
         mkWriter (io.mkLogged Broken [take 5 oversized]) 0,
         source_of (drop 5 oversized)).
Proof. split; vm_compute; reflexivity. Qed.

(** ** The one-shot property *)

Section OneShot.
Context {S : Type} `{!io.Writer S}.

(** C2. Once a first [Write] has returned, the offset is cleared (it is not
    positive, and it is zero when the configured offset was not negative),
    and every later [Write], whatever its buffer, hands that buffer to the
    sink as it is and returns the sink's answer, the offset staying as it
    is. *)
Theorem Write_one_shot (w : tlsRecordFragWriter (io.Logged S))
    (data : list byte) r w1 (calls : list (list byte)) :
  Write w data = Ret (r, w1) →
  prefixBytes w1 ≤ 0 ∧ (0 ≤ prefixBytes w → prefixBytes w1 = 0) ∧
  ∃ results s2,
    sink_Writes (writer w1) calls = (results, s2) ∧
    Writes w1 calls = Ret (results, mkWriter s2 (prefixBytes w1)) ∧
    io.delivered s2 = io.delivered (writer w1) ++ calls.
Proof.
  intros HW. apply Write_prefixBytes in HW.
  destruct (disarm_prefixBytes w) as (Hle & Hzero). rewrite <- HW in *.
  split; [done|]. split; [done|].
  destruct (sink_Writes (writer w1) calls) as [results s2] eqn:Hsink.
  exists results, s2. split; [done|]. split.
  - by rewrite Writes_disarmed, Hsink.
  - by apply sink_Writes_delivered in Hsink.
Qed.

End OneShot.

Lemma Write_one_shot_witness :
  let w1 := mkWriter (io.mkLogged tt [split_record 4 record21]) 0 in
  let calls := [record21; record4_and_more] in
  prefixBytes w1 ≤ 0 ∧ (0 ≤ 4 → prefixBytes w1 = 0) ∧
  ∃ results s2,
    sink_Writes (writer w1) calls = (results, s2) ∧
    Writes w1 calls = Ret (results, mkWriter s2 (prefixBytes w1)) ∧
    io.delivered s2 = io.delivered (writer w1) ++ calls.
Proof.
  apply (Write_one_shot (fresh tt 4) record21 (21, None)
           (mkWriter (io.mkLogged tt [split_record 4 record21]) 0)
           [record21; record4_and_more]).
  vm_compute. reflexivity.
Defined.

(** ** The count returned by push mode *)

Section ReturnedCount.
Context {W : Type} `{!io.Writer W}.

(** C5 (as amended). When a split occurred, the count [Write] returns is
    the count [n] of the sink minus 5 when [n] is 5 or more, and [n] itself
    when [n] is below 5; the error is the sink's. *)
Theorem Write_split_count (w : tlsRecordFragWriter W) (data : list byte)
    n err s' :
  len data < 2 ^ 31 - 5 →
  push_splits (prefixBytes w) data →
  io.Write (writer w) (split_record (prefixBytes w) data) = (n, err, s') →
  Write w data =
  Ret (if decide (n >= 5) then n - 5 else n, err, mkWriter s' 0).
Proof.
  intros Hlen Hsplit Hsink. rewrite Write_split by done.
  unfold writer_Write. simpl. by rewrite Hsink.
Qed.

End ReturnedCount.

Lemma Write_split_count_witness :
  Write (fresh 3%nat 4) record21 =
  Ret (3, Some io.ErrShortWrite,
       mkWriter (io.mkLogged 3%nat [split_record 4 record21]) 0).
Proof.
  apply (Write_split_count (fresh 3%nat 4) record21 3 (Some io.ErrShortWrite)
           (io.mkLogged 3%nat [split_record 4 record21]));
    [by_decide|by_decide|vm_compute; reflexivity].
Defined.

(** C5, as stated, fails: a sink that takes three bytes of the split buffer
    makes [Write] return 3, not [max (3 - 5) 0 = 0]. *)
Lemma Write_count_not_clamped :
  push_splits 4 record21 ∧
  io.Write (io.mkLogged 3%nat []) (split_record 4 record21)
    = (3, Some io.ErrShortWrite, io.mkLogged 3%nat [split_record 4 record21]) ∧
  Write (fresh 3%nat 4) record21 =
    Ret (3, Some io.ErrShortWrite,
         mkWriter (io.mkLogged 3%nat [split_record 4 record21]) 0) ∧
  3 ≠ Z.max (3 - 5) 0.
Proof.
  split; [by_decide|]. split; [vm_compute; reflexivity|].
  split; [vm_compute; reflexivity|]. lia.
Qed.

(** ** The end-to-end scenario *)

Section Scenario.
Context {S : Type} `{!io.Writer S}.

(** C6. With offset 4, one [Write] of the header [16 03 03 00 10] and
    sixteen payload bytes hands the sink exactly [16 03 03 00 04], the
    first four payload bytes, [16 03 03 00 0c] and the other twelve; when
    the sink takes all 26 bytes, [Write] returns 21, the length of the
    input. *)
Theorem end_to_end_scenario (s : S) (log : list (list byte))
    (payload : list byte) n err s' :
  let input := [x16; x03; x03; x00; x10] ++ payload in
  let output := [x16; x03; x03; x00; x04] ++ take 4 payload ++
                [x16; x03; x03; x00; x0c] ++ drop 4 payload in
  length payload = 16%nat →
  io.Write s output = (n, err, s') →
  Write (NewWriter (io.mkLogged s log) 4) input =
    Ret (adjust n, err, mkWriter (io.mkLogged s' (log ++ [output])) 0) ∧
  (n = len output → adjust n = 21 ∧ len input = 21).
Proof.
  intros input output Hlen Hsink.
  do 16 (destruct payload as [|? payload]; [discriminate|]).
  destruct payload; [|discriminate]. clear Hlen. split.
  - rewrite Write_split; [|by_decide..].
    rewrite writer_Write_Logged. simpl writer. simpl io.inner.
    change (split_record _ _) with output. by rewrite Hsink.
  - intros ->. by vm_compute.
Qed.

End Scenario.

Lemma end_to_end_scenario_witness :
  Write (fresh tt 4) record21 =
    Ret (21, None,
         mkWriter (io.mkLogged tt
           [[x16; x03; x03; x00; x04] ++ take 4 payload16 ++
            [x16; x03; x03; x00; x0c] ++ drop 4 payload16]) 0) ∧
  (26 = 26 → adjust 26 = 21 ∧ len record21 = 21).
Proof.
  apply (end_to_end_scenario tt [] payload16 26 None tt);
    [reflexivity|vm_compute; reflexivity].
Defined.

(** ** Oversized records *)

Section Oversized.
Context {S : Type} `{!io.Writer S}.
Implicit Types (w : tlsRecordFragWriter (io.Logged S)).

(** C7. A record whose length field exceeds 16384 is never split. In push
    mode the buffer goes to the sink as it is, with the sink's answer, and
    the offset is cleared. In pull mode the header and the rest of the
    source go through [dontFrag], so that a sink that takes everything is
    handed the source's bytes unchanged. A handshake record whose length
    field is exactly 16384 is still split, in both modes. *)
Theorem oversized_record_passthrough :
  (∀ w data,
     5 ≤ len data → 16384 < hdr_length data →
     Write w data =
     Ret (let '(n, err, s') := io.Write (io.inner (writer w)) data in
          (n, err,
           mkWriter (io.mkLogged s' (io.delivered (writer w) ++ [data]))
             (prefixBytes (disarm w))))) ∧
  (∀ w source,
     let input := io.remaining source in
     0 < prefixBytes w → (5 ≤ length input)%nat → 16384 < hdr_length input →
     ∃ source',
       io.remaining source' = drop 5 input ∧
       ReadFrom w source = Ret (dontFrag w (take 5 input) source') ∧
       (io.accepts_all S →
        ∃ n err w' source'',
          dontFrag w (take 5 input) source' = (n, err, w', source'') ∧
          concat (io.delivered (writer w')) =
            concat (io.delivered (writer w)) ++ input)) ∧
  (∀ w data,
     hdr_type data = 22 → hdr_length data = 16384 →
     0 < prefixBytes w < 16384 →
     16384 ≤ len data - 5 → len data < 2 ^ 31 - 5 →
     ∃ n err w',
       Write w data = Ret (n, err, w') ∧
       io.delivered (writer w') =
         io.delivered (writer w) ++ [split_record (prefixBytes w) data]) ∧
  (∀ w source,
     let input := io.remaining source in
     hdr_type input = 22 → hdr_length input = 16384 →
     0 < prefixBytes w < 16384 → 5 + 16384 ≤ len input →
     io.accepts_all S →
     ∃ n err w' source',
       ReadFrom w source = Ret (n, err, w', source') ∧
       concat (io.delivered (writer w')) =
         concat (io.delivered (writer w)) ++
         split_record (prefixBytes w) input).
Proof.
  repeat split.
  - intros w data Hlen Hover. rewrite Write_oversized by done.
    rewrite writer_Write_Logged. unfold disarm. by case_decide.
  - intros w source input Harmed Hlen Hover.
    destruct (ReadFrom_dontFrag w source Harmed Hlen) as (src' & Hrem & _ & HR).
    { unfold eligible. fold input. lia. }
    exists src'. repeat split; [done..|]. intros Hacc.
    destruct (dontFrag_accepting w (take 5 input) src' Hacc)
      as (n & err & w' & src'' & HD & Hlog & _).
    exists n, err, w', src''. split; [done|].
    by rewrite Hlog, Hrem, take_drop.
  - intros w data Ht HL Hoff Hwhole Hlen.
    assert (Hsplit : push_splits (prefixBytes w) data)
      by (unfold push_splits, eligible; lia).
    destruct (Write_delivers w data) as (n & err & w' & HW & Hlog);
      [lia..| |].
    { unfold push_faults. lia. }
    exists n, err, w'. split; [done|]. by rewrite decide_True in Hlog.
  - intros w source input Ht HL Hoff Hwhole Hacc.
    assert (Hel : eligible (prefixBytes w) input) by (unfold eligible; lia).
    destruct (ReadFrom_delivers w source Hacc) as (n & err & w' & src' & HR & Hlog).
    { intros _. fold input. rewrite HL. unfold len in Hwhole. split; lia. }
    exists n, err, w', src'. split; [done|].
    fold input in Hlog. by rewrite decide_True in Hlog.
Qed.

End Oversized.

Lemma oversized_record_passthrough_witness :
  Write (fresh tt 4) oversized =
    Ret (len oversized, None, mkWriter (io.mkLogged tt [oversized]) 0) ∧
  (∃ source',
     io.remaining source' = drop 5 oversized ∧
     ReadFrom (fresh tt 4) (source_of oversized) =
       Ret (dontFrag (fresh tt 4) (take 5 oversized) source')) ∧
  (∃ n err w',
     Write (fresh tt 4) largest = Ret (n, err, w') ∧
     io.delivered (writer w') = [split_record 4 largest]) ∧
  (∃ n err w' source',
     ReadFrom (fresh tt 4) (source_of largest) = Ret (n, err, w', source') ∧
     concat (io.delivered (writer w')) = split_record 4 largest).
Proof.
  destruct (@oversized_record_passthrough unit _)
    as (Hpush & Hpull & Hpush_max & Hpull_max).
  split; [|split; [|split]].
  - apply (Hpush (fresh tt 4) oversized); by_decide.
  - destruct (Hpull (fresh tt 4) (source_of oversized))
      as (src' & Hrem & HR & _); [by_decide..|].
    exists src'. split; [exact Hrem|exact HR].
  - apply (Hpush_max (fresh tt 4) largest); by_decide.
  - apply (Hpull_max (fresh tt 4) (source_of largest));
      [by_decide..|exact accept_all_accepts].
Defined.

(** ** Offsets that are not positive *)

Section NonPositive.
Context {W : Type} `{!io.Writer W}.

(** C8. A writer made with an offset that is not positive never splits:
    every [Write] is the sink's [Write] on the same buffer, with its count
    and error, and every [ReadFrom] is [io.Copy] from the source into the
    sink; the writer that comes back has the same offset, so this holds for
    every later call as well. *)
Theorem nonpositive_offset_is_passthrough (s : W) (offsetBytes : Z) :
  offsetBytes ≤ 0 →
  (∀ data,
     Write (NewWriter s offsetBytes) data =
     Ret (let '(n, err, s') := io.Write s data in
          (n, err, NewWriter s' offsetBytes))) ∧
  (∀ source,
     ReadFrom (NewWriter s offsetBytes) source =
     Ret (let '(n, err, s', source') := io.Copy s source in
          (n, err, NewWriter s' offsetBytes, source'))).
Proof.
  intros Hoff. split.
  - intros data. by rewrite Write_disarmed.
  - intros source. by rewrite ReadFrom_disarmed.
Qed.

End NonPositive.

Lemma nonpositive_offset_is_passthrough_witness :
  (∀ data,
     Write (NewWriter (io.mkLogged tt []) (-3)) data =
     Ret (let '(n, err, s') := io.Write (io.mkLogged tt []) data in
          (n, err, NewWriter s' (-3)))) ∧
  (∀ source,
     ReadFrom (NewWriter (io.mkLogged tt []) (-3)) source =
     Ret (let '(n, err, s', source') := io.Copy (io.mkLogged tt []) source in
          (n, err, NewWriter s' (-3), source'))).
Proof.
  apply (nonpositive_offset_is_passthrough (io.mkLogged tt []) (-3)). lia.
Defined.

(** ** The prefix of a Shadowsocks URL *)

Section ShadowsocksPrefix.
Context {Key : Type}.
Variable NewEncryptionKey : gostring → gostring → option Key.
Variable DecodeString : gostring → option (list byte).

#[local] Abbreviation parseURL :=
  (parseShadowsocksURL NewEncryptionKey DecodeString).

(** With the host and the cipher accepted, the outcome is that of the
    prefix. *)
Lemma parseShadowsocksURL_prefix url info name secret key :
  Host url ≠ [] → DecodeString (User url) = Some info →
  Cut info x3a = (name, secret, true) →
  NewEncryptionKey name secret = Some key →
  Query_prefix url ≠ [] →
  parseURL url =
  match parseStringPrefix (Query_prefix url) with
  | Failed e => Failed (ParsePrefix e)
  | Ok p => Ok (mkConfig (Host url) (Some key) p)
  end.
Proof.
  intros Hhost Hdec Hcut Hkey Hne. unfold parseShadowsocksURL.
  rewrite decide_False, Hdec, Hcut by done. simpl negb. cbv iota.
  rewrite Hkey. rewrite decide_True; [done|].
  destruct (Query_prefix url); [done|]. unfold len. simpl. lia.
Qed.

(** A prefix that does not parse fails the URL, wherever it stops. *)
Lemma parseShadowsocksURL_bad_prefix url e :
  Query_prefix url ≠ [] →
  parseStringPrefix (Query_prefix url) = Failed e →
  ∃ e', parseURL url = Failed e'.
Proof.
  intros Hne Hbad. unfold parseShadowsocksURL.
  case_decide; [by eexists|].
  destruct (DecodeString _); [|by eexists].
  destruct (Cut _ _) as [[name secret] [|]]; simpl; [|by eexists].
  destruct (NewEncryptionKey _ _); [|by eexists].
  rewrite Hbad. case_decide; [by eexists|].
  destruct (Query_prefix url); [done|]. unfold len in *. simpl in *. lia.
Qed.

(** C10. The prefix parameter is read rune by rune as Latin-1. A non-empty
    prefix is accepted exactly when every rune of the string is at most
    [0xFF]; the prefix then has one byte for each rune, and the value of
    byte [i] is the code point of rune [i]; a rune above [0xFF] makes
    [parseShadowsocksURL] return an error. *)
Theorem parseShadowsocksURL_prefix_latin1 (url : URL) :
  let prefixStr := Query_prefix url in
  let runes := runes_of prefixStr in
  prefixStr ≠ [] →
  ((∃ p, parseStringPrefix prefixStr = Ok p) ↔ Forall (λ r, r ≤ 0xFF) runes) ∧
  (∀ p, parseStringPrefix prefixStr = Ok p →
        length p = length runes ∧ byte_val <$> p = runes) ∧
  (¬ Forall (λ r, r ≤ 0xFF) runes → ∃ e, parseURL url = Failed e) ∧
  (∀ info name secret key,
     Host url ≠ [] → DecodeString (User url) = Some info →
     Cut info x3a = (name, secret, true) →
     NewEncryptionKey name secret = Some key →
     ((∃ cfg, parseURL url = Ok cfg) ↔ Forall (λ r, r ≤ 0xFF) runes) ∧
     (Forall (λ r, r ≤ 0xFF) runes →
      parseURL url = Ok (mkConfig (Host url) (Some key) (byte_of <$> runes)))).
Proof.
  intros prefixStr runes Hne.
  assert (Hok : Forall (λ r, r ≤ 0xFF) runes →
                parseStringPrefix prefixStr = Ok (byte_of <$> runes))
    by apply parseStringPrefix_ok.
  assert (Hbad : ¬ Forall (λ r, r ≤ 0xFF) runes →
                 ∃ r, parseStringPrefix prefixStr = Failed (CharacterOutOfRange r))
    by (intros Hn; destruct (parseStringPrefix_out_of_range prefixStr Hn)
          as (r & ? & _); eauto).
  assert (Hiff : (∃ p, parseStringPrefix prefixStr = Ok p) ↔
                 Forall (λ r, r ≤ 0xFF) runes).
  { split; [|eauto]. intros (p & Hp).
    destruct (decide (Forall (λ r, r ≤ 0xFF) runes)) as [|Hn]; [done|].
    destruct (Hbad Hn) as (r & Hr). congruence. }
  split; [done|]. split; [|split].
  - intros p Hp. pose proof (proj1 Hiff (ex_intro _ p Hp)) as Hall.
    rewrite (Hok Hall) in Hp. injection Hp as <-.
    rewrite length_fmap. split; [done|]. apply byte_val_runes.
    pose proof (runes_of_nonneg prefixStr) as Hpos. fold runes in Hpos.
    rewrite Forall_forall in *. intros r Hr.
    specialize (Hall r Hr). specialize (Hpos r Hr). simpl in *. lia.
  - intros Hn. destruct (Hbad Hn) as (r & Hr).
    by apply (parseShadowsocksURL_bad_prefix url (CharacterOutOfRange r)).
  - intros info name secret key Hhost Hdec Hcut Hkey.
    rewrite (parseShadowsocksURL_prefix url info name secret key) by done.
    fold prefixStr. split.
    + rewrite <- Hiff. destruct (parseStringPrefix prefixStr) as [p|e].
      * split; eauto.
      * split; [by intros (? & ?)|by intros (? & ?)].
    + intros Hall. by rewrite (Hok Hall).
Qed.

End ShadowsocksPrefix.

Lemma parseShadowsocksURL_prefix_latin1_witness :
  parseShadowsocksURL any_key no_decoding prefix_url =
    Ok (mkConfig [x68] (Some tt) [xe9; x41; xff]) ∧
  runes_of (Query_prefix prefix_url) = [0xE9; 0x41; 0xFF].
Proof.
  destruct (parseShadowsocksURL_prefix_latin1 any_key no_decoding prefix_url)
    as (_ & _ & _ & Hurl); [discriminate|].
  destruct (Hurl [x61; x3a; x62] [x61] [x62] tt) as (_ & Hok);
    [discriminate|reflexivity..|].
  split; [|reflexivity]. apply Hok. by_decide.
Defined.

(** The prefix is not the UTF-8 encoding of the string: [é] is the two
    bytes [c3 a9] in the URL and the one byte [e9] in the prefix, and
    [U+0100] is refused. *)
Example prefix_is_not_utf8 :
  parseStringPrefix [xc3; xa9] = Ok [xe9] ∧
  parseStringPrefix [xc4; x80] = Failed (CharacterOutOfRange 256) ∧
  parseStringPrefix [xff] = Failed (CharacterOutOfRange 0xFFFD).
Proof. by vm_compute. Qed.

Import Inputs.

(** ** Pull mode never faults, and always settles the offset *)

Section PullModeTotal.
Context {W : Type} `{!io.Writer W}.
Implicit Types (w : tlsRecordFragWriter W) (source : io.Source).

Lemma dontFrag_prefixBytes w first source n err w' source' :
  dontFrag w first source = (n, err, w', source') → prefixBytes w' = 0.
Proof.
  unfold dontFrag, writer_Write, writer_Copy.
  destruct (io.Write (writer w) first) as [[tmp [e|]] s]; simpl.
  { by intros [= _ _ <- _]. }
  destruct (io.Copy s source) as [[[n1 e1] s1] src1]. by intros [= _ _ <- _].
Qed.

(** The header read fell short. *)
Lemma ReadFrom_header_short w source :
  0 < prefixBytes w → (length (io.remaining source) < 5)%nat →
  ∃ e source', ReadFrom w source = Ret (0, Some e, w, source').
Proof.
  intros Harmed Hshort. unfold ReadFrom. rewrite decide_True by done.
  destruct (ReadFull_short source 5 Hshort) as (src' & -> & _).
  by eexists _, _.
Qed.

(** A payload read fell short. *)
Lemma ReadFrom_payload_short w source :
  let input := io.remaining source in
  eligible (prefixBytes w) input →
  (5 ≤ length input < 5 + Z.to_nat (hdr_length input))%nat →
  ∃ e source', ReadFrom w source = Ret (0, Some e, set_prefixBytes 0 w, source').
Proof.
  intros input (Ht & Hmax & Hoff) Hpart.
  destruct (ReadFrom_header w source) as (src1 & Hrem1 & Hfin1 & HR & Hhdr);
    [lia|fold input; lia|].
  unfold ReadFrom. rewrite decide_True, HR, Hhdr by lia. clear HR Hhdr.
  pose proof (hdr_length_range input) as HL.
  fold input in Hrem1 |- *. set (L := hdr_length input) in *.
  set (off := prefixBytes w) in *. clearbody input.
  header_of input b0 b1 b2 b3 b4 rest.
  set (input := b0 :: b1 :: b2 :: b3 :: b4 :: rest) in *.
  assert (Hd : len input = 5 + len rest) by (unfold len; simpl; lia).
  change (take 5 input) with [b0; b1; b2; b3; b4].
  change (drop 5 input) with rest in *.
  change (hdr_type input) with (byte_val b0) in *.
  assert (HLv : byte_val b3 * 256 + byte_val b4 = L) by reflexivity.
  pull_decode b0 b1 b2 b3 b4 L HLv.
  pull_first_slot b0 b1 b2 b3 b4 L off.
  destruct (decide (len rest < off)) as [Hfirst|Hfirst].
  - destruct (ReadFull_short src1 (Z.to_nat off))
      as (src2 & -> & _); [rewrite Hrem1; len_solve|].
    rewrite Hrem1. rewrite copy_at_ok, bind_Ret by len_solve. by eexists _, _.
  - destruct (ReadFull_enough src1 (Z.to_nat off))
      as (src2 & -> & Hrem2 & _); [rewrite Hrem1; len_solve|].
    rewrite Hrem1 in *.
    set (r1 := take (Z.to_nat off) rest) in *.
    assert (Hr1 : len r1 = off) by (subst r1; len_solve).
    rewrite Hr1.
    pull_second_slot L off.
    destruct (ReadFull_short src2 (Z.to_nat (L - off)))
      as (src3 & -> & _); [rewrite Hrem2; len_solve|].
    rewrite Hrem2. rewrite copy_at_ok, bind_Ret by len_solve. by eexists _, _.
Qed.

(** X1. [ReadFrom] returns on every writer and every source: no slice of
    pull mode is ever out of range. *)
Theorem ReadFrom_never_panics w source :
  ∃ n err w' source', ReadFrom w source = Ret (n, err, w', source').
Proof.
  destruct (decide (0 < prefixBytes w)) as [Harmed|Hdis].
  - destruct (decide (length (io.remaining source) < 5)%nat) as [Hshort|Hhdr].
    { destruct (ReadFrom_header_short w source Harmed Hshort) as (e & src' & ->).
      by eexists _, _, _, _. }
    destruct (decide (eligible (prefixBytes w) (io.remaining source)))
      as [Hel|Hne].
    + destruct (decide (5 + Z.to_nat (hdr_length (io.remaining source))
                        ≤ length (io.remaining source))%nat) as [Hwhole|Hpart].
      * destruct (ReadFrom_split w source Hel Hwhole) as (src' & _ & _ & ->).
        destruct (writer_Write w _) as [[tmp [e|]] w1]; [by eexists _, _, _, _|].
        cbv beta iota zeta.
        destruct (writer_Copy _ src') as [[[n e] w2] src''].
        by eexists _, _, _, _.
      * destruct (ReadFrom_payload_short w source Hel) as (e & src' & ->); [lia|].
        by eexists _, _, _, _.
    + destruct (ReadFrom_dontFrag w source Harmed) as (src' & _ & _ & ->);
        [lia|done|].
      destruct (dontFrag _ _ _) as [[[n e] w'] src''].
      by eexists _, _, _, _.
  - rewrite ReadFrom_disarmed by lia.
    destruct (writer_Copy w source) as [[[n e] w'] src'].
    by eexists _, _, _, _.
Qed.

Lemma writer_Copy_prefixBytes w source n err w' source' :
  writer_Copy w source = (n, err, w', source') → prefixBytes w' = prefixBytes w.
Proof.
  unfold writer_Copy. destruct (io.Copy (writer w) source) as [[[? ?] ?] ?].
  by intros [= _ _ <- _].
Qed.

(** X2. Once an armed [ReadFrom] has read its five header bytes, the
    offset is cleared when it returns, whatever the record and whatever
    the source and the sink answer afterwards; from then on a [Write]
    forwards its buffer and a [ReadFrom] copies its source. *)
Theorem ReadFrom_header_read_disarms w source :
  0 < prefixBytes w → (5 ≤ length (io.remaining source))%nat →
  ∃ n err w' source',
    ReadFrom w source = Ret (n, err, w', source') ∧
    prefixBytes w' = 0 ∧
    (∀ data, Write w' data = Ret (writer_Write w' data)) ∧
    (∀ later, ReadFrom w' later = Ret (writer_Copy w' later)).
Proof.
  intros Harmed Hhdr.
  assert (Hnext : ∀ n err w' source',
    ReadFrom w source = Ret (n, err, w', source') → prefixBytes w' = 0 →
    ∃ n err w' source',
      ReadFrom w source = Ret (n, err, w', source') ∧
      prefixBytes w' = 0 ∧
      (∀ data, Write w' data = Ret (writer_Write w' data)) ∧
      (∀ later, ReadFrom w' later = Ret (writer_Copy w' later))).
  { intros n err w' src' HR Hz. exists n, err, w', src'.
    split; [done|]. split; [done|]. split; intros.
    - apply Write_disarmed. lia.
    - apply ReadFrom_disarmed. lia. }
  destruct (decide (eligible (prefixBytes w) (io.remaining source)))
    as [Hel|Hne].
  - destruct (decide (5 + Z.to_nat (hdr_length (io.remaining source))
                      ≤ length (io.remaining source))%nat) as [Hwhole|Hpart].
    + destruct (ReadFrom_split w source Hel Hwhole) as (src' & _ & _ & HR).
      destruct (writer_Write w _) as [[tmp [e|]] w1] eqn:HW;
        [by eapply Hnext|].
      cbv beta iota zeta in HR.
      destruct (writer_Copy _ src') as [[[n e] w2] src''] eqn:HC.
      apply writer_Copy_prefixBytes in HC. by eapply Hnext.
    + destruct (ReadFrom_payload_short w source Hel) as (e & src' & HR); [lia|].
      by eapply Hnext.
  - destruct (ReadFrom_dontFrag w source Harmed Hhdr Hne) as (src' & _ & _ & HR).
    destruct (dontFrag _ _ _) as [[[n e] w'] src''] eqn:HD.
    apply dontFrag_prefixBytes in HD. by eapply Hnext.
Qed.

(** X3. After a [Write] that returned, [ReadFrom] on the same writer is
    [io.Copy] from the source into the sink: the two entry points share
    the one-shot state. *)
Theorem Write_then_ReadFrom_copies w data r w1 source :
  Write w data = Ret (r, w1) →
  ReadFrom w1 source = Ret (writer_Copy w1 source).
Proof.
  intros HW. apply Write_prefixBytes in HW.
  destruct (disarm_prefixBytes w) as (Hle & _). rewrite <- HW in Hle.
  by apply ReadFrom_disarmed.
Qed.

End PullModeTotal.

Lemma ReadFrom_header_read_disarms_witness :
  ∃ n err w' source',
    ReadFrom (fresh tt 4) (source_of record21) = Ret (n, err, w', source') ∧
    prefixBytes w' = 0 ∧
    (∀ data, Write w' data = Ret (writer_Write w' data)) ∧
    (∀ later, ReadFrom w' later = Ret (writer_Copy w' later)).
Proof.
  apply (ReadFrom_header_read_disarms (fresh tt 4) (source_of record21));
    by_decide.
Defined.

Lemma Write_then_ReadFrom_copies_witness :
  let w1 := mkWriter (io.mkLogged tt [split_record 4 record21]) 0 in
  ReadFrom w1 (source_of payload16) = Ret (writer_Copy w1 (source_of payload16)).
Proof.
  apply (Write_then_ReadFrom_copies (fresh tt 4) record21 (21, None)).
  vm_compute. reflexivity.
Defined.

(** ** Counts *)

Section CopyCount.
Import io.
Context {W : Type} `{!Writer W}.

(** Into a sink that takes everything, [Copy] counts every byte of the
    source. *)
Lemma copy_loop_count fuel (dst : W) src written :
  accepts_all W → (weight src ≤ fuel)%nat →
  0 ≤ written → written + len (remaining src) < 2 ^ 63 →
  ∃ dst' src',
    copy_loop fuel dst src written =
    (written + len (remaining src), copy_error (final src), dst', src').
Proof.
  intros Hacc. revert dst src written.
  induction fuel as [|fuel IH]; intros dst src written Hf Hpos Hmax;
    [unfold weight in Hf; lia|].
  rewrite copy_loop_S.
  destruct (Read src copyBufferSize) as [[p er] src1] eqn:HR.
  apply Read_spec in HR as (Hrem & Hfin & _ & Herr).
  cbv zeta. destruct er as [e|].
  - destruct Herr as (-> & -> & Hnil & ->). simpl.
    rewrite Hnil. change (len []) with 0. rewrite Z.add_0_r. by eexists _, _.
  - destruct Herr as (Hw & _). specialize (Hw copyBufferSize_pos).
    rewrite Hrem in Hmax |- *. unfold len in Hmax |- *.
    rewrite length_app in Hmax |- *. fold (len p).
    case_decide as Hp.
    + destruct (Hacc dst p) as (dst1 & ->).
      rewrite decide_False by lia. rewrite decide_False by lia.
      rewrite (int64_id (len p)), (int64_id (written + len p))
        by (unfold len in *; lia).
      destruct (IH dst1 src1 (written + len p)) as (dst' & src' & ->);
        [lia|unfold len; lia|unfold len; lia|].
      rewrite Hfin. eexists _, _. do 3 f_equal.
      unfold len. lia.
    + assert (p = []) as -> by (destruct p; [done|unfold len in Hp; simpl in Hp; lia]).
      destruct (IH dst src1 written) as (dst' & src' & ->);
        [lia|lia|unfold len; rewrite Nat.add_0_l in Hmax; lia|].
      rewrite Hfin. by eexists _, _.
Qed.

Lemma Logged_accepts_all : accepts_all W → accepts_all (Logged W).
Proof.
  intros Hacc [s log] p. rewrite Write_Logged.
  destruct (Hacc s p) as (s' & ->). by eexists.
Qed.

End CopyCount.

Section Counts.
Context {S : Type} `{!io.Writer S}.
Implicit Types (w : tlsRecordFragWriter (io.Logged S)).

Lemma writer_Copy_count w source :
  io.accepts_all S → len (io.remaining source) < 2 ^ 63 →
  ∃ w' source',
    writer_Copy w source =
      (len (io.remaining source), io.copy_error (io.final source), w', source') ∧
    io.remaining source' = [].
Proof.
  intros Hacc Hlen. unfold writer_Copy.
  destruct (Copy_accepting (writer w) source Hacc)
    as (n & dst' & src' & HC & _ & Hnil & _).
  destruct (copy_loop_count (io.weight source) (writer w) source 0)
    as (dst'' & src'' & HN); [by apply Logged_accepts_all|lia|lia|lia|].
  unfold io.Copy in HC. rewrite HC in HN. injection HN as -> _ _.
  unfold io.Copy. rewrite HC. by eexists _, _.
Qed.

(** With a sink that takes every buffer whole, the count of [Write] is the
    length of its buffer. *)
Lemma Write_count_accepting w data :
  io.accepts_all S →
  len data < 2 ^ 31 - 5 → - 2 ^ 31 ≤ prefixBytes w < 2 ^ 31 - 5 →
  ¬ push_faults (prefixBytes w) data →
  ∃ w', Write w data = Ret (len data, None, w').
Proof.
  intros Hacc Hlen Hoff Hnf.
  destruct (decide (push_splits (prefixBytes w) data)) as [Hsplit|Hns].
  - rewrite Write_split by done.
    destruct (writer_Write_accepting (set_prefixBytes 0 w)
                (split_record (prefixBytes w) data) Hacc) as (s' & ->).
    destruct Hsplit as (Hel & Hwhole).
    destruct (split_record_shape (prefixBytes w) data Hel) as (Hout & _).
    { unfold len in Hwhole. pose proof (hdr_length_range data). lia. }
    eexists. do 3 f_equal. unfold adjust, len. rewrite Hout.
    rewrite decide_True by lia. lia.
  - rewrite Write_passthrough by (done || lia).
    destruct (writer_Write_accepting (disarm w) data Hacc) as (s' & ->).
    by eexists.
Qed.

(** With a sink that takes every buffer whole, the count of [ReadFrom] is
    the length of its source. *)
Lemma ReadFrom_count_accepting w source :
  let off := prefixBytes w in
  let input := io.remaining source in
  io.accepts_all S → len input < 2 ^ 63 →
  (0 < off →
   (5 ≤ length input)%nat ∧
   (eligible off input → (5 + Z.to_nat (hdr_length input) ≤ length input)%nat)) →
  ∃ w' source',
    ReadFrom w source =
      Ret (len input, io.copy_error (io.final source), w', source') ∧
    io.remaining source' = [].
Proof.
  intros off input Hacc Hlen Hsrc.
  destruct (decide (0 < off)) as [Harmed|Hdis].
  - destruct (Hsrc Harmed) as (Hhdr & Hrec).
    pose proof (hdr_length_range input) as HL.
    destruct (decide (eligible off input)) as [Hel|Hne].
    + destruct (ReadFrom_split w source Hel (Hrec Hel))
        as (s1 & Hrem & Hfin & HS).
      destruct (writer_Write_accepting w
                  (fragments (prefixBytes w) (io.remaining source)) Hacc)
        as (s' & HW). rewrite HW in HS. cbv beta iota zeta in HS.
      match type of HS with context [writer_Copy ?w1 s1] =>
        destruct (writer_Copy_count w1 s1 Hacc) as (w2 & s2 & HC & Hnil) end.
      { rewrite Hrem. fold input. unfold len in *. rewrite length_drop. lia. }
      rewrite HC, Hrem, Hfin in HS. fold input in HS.
      assert (Hfrag : len (fragments (prefixBytes w) input)
                      = 10 + hdr_length input).
      { specialize (Hrec Hel). destruct Hel as (_ & _ & Hoff).
        fold off. unfold fragments. len_solve. }
      rewrite Hfrag in HS. unfold adjust in HS.
      rewrite decide_True in HS by lia.
      rewrite (int64_id (10 + hdr_length input - 5)) in HS by lia.
      assert (Hsum : 10 + hdr_length input - 5
                     + len (drop (5 + Z.to_nat (hdr_length input)) input)
                     = len input).
      { specialize (Hrec Hel). unfold len. rewrite length_drop. lia. }
      rewrite Hsum, int64_id in HS by (unfold len in *; lia).
      by exists w2, s2.
    + destruct (ReadFrom_dontFrag w source Harmed Hhdr Hne)
        as (s1 & Hrem & Hfin & HS).
      unfold dontFrag in HS.
      destruct (writer_Write_accepting w (take 5 (io.remaining source)) Hacc)
        as (s' & HW). rewrite HW in HS.
      match type of HS with context [writer_Copy ?w1 s1] =>
        destruct (writer_Copy_count w1 s1 Hacc) as (w2 & s2 & HC & Hnil) end.
      { rewrite Hrem. fold input. unfold len in *. rewrite length_drop. lia. }
      rewrite HC, Hrem, Hfin in HS. fold input in HS.
      assert (Hfive : len (take 5 input) = 5) by (unfold len; rewrite length_take; lia).
      rewrite Hfive, (int64_id 5) in HS by lia.
      assert (Hsum : 5 + len (drop 5 input) = len input)
        by (unfold len; rewrite length_drop; lia).
      rewrite Hsum, int64_id in HS by (unfold len in *; lia).
      by exists w2, s2.
  - pose proof (ReadFrom_disarmed w source ltac:(lia)) as HS.
    destruct (writer_Copy_count w source Hacc Hlen) as (w2 & s2 & HC & Hnil).
    rewrite HC in HS. by exists w2, s2.
Qed.

(** X4. The [io.Writer] contract survives the split: when the sink takes
    every buffer whole, [Write] reports the length of its own buffer and
    no error, whether it forwarded the buffer or wrote five bytes more. *)
Theorem Write_reports_buffer_length w data :
  io.accepts_all S →
  len data < 2 ^ 31 - 5 → - 2 ^ 31 ≤ prefixBytes w < 2 ^ 31 - 5 →
  ¬ push_faults (prefixBytes w) data →
  ∃ w', Write w data = Ret (len data, None, w').
Proof. apply Write_count_accepting. Qed.

(** X5. In pull mode the count is the number of bytes taken from the
    source: with a sink that takes everything and a source that holds the
    header and, for a split, the whole record, [ReadFrom] returns the
    length of the source, with the error [io.Copy] has for the source's
    end, and leaves the source empty; the extra header is not counted. *)
Theorem ReadFrom_reports_source_length w source :
  let off := prefixBytes w in
  let input := io.remaining source in
  io.accepts_all S → len input < 2 ^ 63 →
  (0 < off →
   (5 ≤ length input)%nat ∧
   (eligible off input → (5 + Z.to_nat (hdr_length input) ≤ length input)%nat)) →
  ∃ w' source',
    ReadFrom w source =
      Ret (len input, io.copy_error (io.final source), w', source') ∧
    io.remaining source' = [].
Proof. apply ReadFrom_count_accepting. Qed.

End Counts.

Lemma Write_reports_buffer_length_witness :
  ∃ w', Write (fresh tt 4) record21 = Ret (len record21, None, w').
Proof.
  apply (Write_reports_buffer_length (fresh tt 4) record21);
    [exact accept_all_accepts|by_decide..].
Defined.

Lemma ReadFrom_reports_source_length_witness :
  let source := in_two_reads (record21 ++ [xff]) in
  ∃ w' source',
    ReadFrom (fresh tt 4) source =
      Ret (len (io.remaining source), io.copy_error (io.final source),
           w', source') ∧
    io.remaining source' = [].
Proof.
  apply (ReadFrom_reports_source_length (fresh tt 4)
           (in_two_reads (record21 ++ [xff])));
    [exact accept_all_accepts|by_decide|].
  intros _. split; [by_decide|]. intros _. by_decide.
Defined.


(** ** One call, one write *)

Section SinkCalls.
Context {S : Type} `{!io.Writer S}.
Implicit Types (w : tlsRecordFragWriter (io.Logged S)).


End SinkCalls.


(** ** Records that are not split *)

Section NotSplit.
Context {W : Type} `{!io.Writer W}.
Implicit Types (w : tlsRecordFragWriter W) (data : list byte).

(** X7. A buffer that is too short to decide on, down to the empty
    buffer, and a buffer that ends before its first record does, are
    forwarded as they are, with the sink's answer; the offset is cleared
    all the same, so the record is not split later either. *)
Theorem Write_short_or_partial_buffer w data :
  len data < 2 ^ 31 → - 2 ^ 31 ≤ prefixBytes w < 2 ^ 31 - 5 →
  len data ≤ prefixBytes w + 5 ∨ len data - 5 < hdr_length data →
  Write w data = Ret (writer_Write (disarm w) data).
Proof.
  intros Hlen Hoff Hcase. apply Write_passthrough; [done..| |].
  - unfold push_splits, eligible. lia.
  - unfold push_faults. lia.
Qed.

(** X8. A record that is not a handshake record is never split: push mode
    forwards the buffer, pull mode sends the header and the rest of the
    source through [dontFrag]. *)
Theorem non_handshake_record_passthrough w :
  (∀ data,
     len data < 2 ^ 31 → - 2 ^ 31 ≤ prefixBytes w < 2 ^ 31 - 5 →
     hdr_type data ≠ 22 →
     Write w data = Ret (writer_Write (disarm w) data)) ∧
  (∀ source,
     let input := io.remaining source in
     0 < prefixBytes w → (5 ≤ length input)%nat → hdr_type input ≠ 22 →
     ∃ source',
       io.remaining source' = drop 5 input ∧
       ReadFrom w source = Ret (dontFrag w (take 5 input) source')).
Proof.
  split.
  - intros data Hlen Hoff Ht. apply Write_passthrough; [done..| |].
    + unfold push_splits, eligible. tauto.
    + unfold push_faults. tauto.
  - intros source input Harmed Hhdr Ht.
    destruct (ReadFrom_dontFrag w source Harmed Hhdr) as (src' & Hrem & _ & HR).
    { unfold eligible. fold input. tauto. }
    by exists src'.
Qed.

(** X9. The offset is a strict bound. When it equals the length field the
    record is not split, in either mode; when it is one less, push mode
    splits, and the second fragment is the last payload byte under a
    header whose length field is 1. *)
Theorem offset_boundary w :
  (∀ data,
     len data < 2 ^ 31 → prefixBytes w = hdr_length data →
     Write w data = Ret (writer_Write (disarm w) data)) ∧
  (∀ source,
     let input := io.remaining source in
     0 < prefixBytes w → (5 ≤ length input)%nat →
     prefixBytes w = hdr_length input →
     ∃ source',
       io.remaining source' = drop 5 input ∧
       ReadFrom w source = Ret (dontFrag w (take 5 input) source')) ∧
  (∀ data,
     len data < 2 ^ 31 - 5 → hdr_type data = 22 →
     hdr_length data ≤ 16384 → hdr_length data ≤ len data - 5 →
     0 < prefixBytes w → prefixBytes w = hdr_length data - 1 →
     let out := split_record (prefixBytes w) data in
     let second := drop (5 + Z.to_nat (prefixBytes w)) out in
     Write w data =
       Ret (let '(n, err, w') := writer_Write (set_prefixBytes 0 w) out in
            (adjust n, err, w')) ∧
     hdr_length second = 1 ∧
     take 1 (drop 5 second) =
       take 1 (drop (5 + Z.to_nat (prefixBytes w)) data)).
Proof.
  split; [|split].
  - intros data Hlen Heq. pose proof (hdr_length_range data).
    apply Write_passthrough; [done|lia| |].
    + unfold push_splits, eligible. lia.
    + unfold push_faults. lia.
  - intros source input Harmed Hhdr Heq.
    destruct (ReadFrom_dontFrag w source Harmed Hhdr) as (src' & Hrem & _ & HR).
    { unfold eligible. fold input. lia. }
    by exists src'.
  - intros data Hlen Ht Hmax Hwhole Hpos Heq out second.
    assert (Hel : eligible (prefixBytes w) data) by (unfold eligible; lia).
    split; [apply Write_split; [done|by split]|].
    destruct (split_record_shape (prefixBytes w) data Hel)
      as (_ & _ & _ & _ & Hsecond & Hpayload).
    { unfold len in Hwhole. lia. }
    fold out in Hsecond, Hpayload. fold second in Hsecond, Hpayload.
    split; [lia|].
    apply (f_equal (drop (Z.to_nat (prefixBytes w)))) in Hpayload.
    rewrite drop_app_length' in Hpayload.
    + rewrite Hpayload, drop_drop. by rewrite (Nat.add_comm 5).
    + rewrite length_take. subst out. unfold split_record.
      unfold len in *. len_solve.
Qed.

End NotSplit.

Lemma Write_short_or_partial_buffer_witness :
  Write (fresh tt 4) [] = Ret (writer_Write (disarm (fresh tt 4)) []) ∧
  Write (fresh tt 4) (take 12 record21)
    = Ret (writer_Write (disarm (fresh tt 4)) (take 12 record21)).
Proof.
  split.
  - apply (Write_short_or_partial_buffer (fresh tt 4) []);
      [by_decide|by_decide|left; by_decide].
  - apply (Write_short_or_partial_buffer (fresh tt 4) (take 12 record21));
      [by_decide|by_decide|right; by_decide].
Defined.

Lemma non_handshake_record_passthrough_witness :
  Write (fresh tt 4) appdata21
    = Ret (writer_Write (disarm (fresh tt 4)) appdata21) ∧
  ∃ source',
    io.remaining source' = drop 5 appdata21 ∧
    ReadFrom (fresh tt 4) (source_of appdata21)
      = Ret (dontFrag (fresh tt 4) (take 5 appdata21) source').
Proof.
  destruct (non_handshake_record_passthrough (fresh tt 4)) as (Hpush & Hpull).
  split.
  - apply (Hpush appdata21); by_decide.
  - apply (Hpull (source_of appdata21)); by_decide.
Defined.

Lemma offset_boundary_witness :
  Write (fresh tt 16) record21
    = Ret (writer_Write (disarm (fresh tt 16)) record21) ∧
  (∃ source',
     io.remaining source' = drop 5 record21 ∧
     ReadFrom (fresh tt 16) (source_of record21)
       = Ret (dontFrag (fresh tt 16) (take 5 record21) source')) ∧
  hdr_length (drop 20 (split_record 15 record21)) = 1 ∧
  take 1 (drop 5 (drop 20 (split_record 15 record21))) = [x10].
Proof.
  split; [|split].
  - destruct (offset_boundary (fresh tt 16)) as (Hpush & _).
    apply (Hpush record21); by_decide.
  - destruct (offset_boundary (fresh tt 16)) as (_ & Hpull & _).
    apply (Hpull (source_of record21)); by_decide.
  - destruct (offset_boundary (fresh tt 15)) as (_ & _ & Hsplit).
    apply (Hsplit record21); by_decide.
Defined.

(** ** The two modes on the same bytes *)

Section ModesAgree.
Context {S : Type} `{!io.Writer S}.
Implicit Types (w : tlsRecordFragWriter (io.Logged S)).


End ModesAgree.


(** ** What the sink is handed, whatever it answers *)

Section CopyPrefix.
Import io.
Context {W : Type} `{!Writer W}.

(** Whatever the sink answers, [Copy] hands it a beginning of the source,
    in order. *)
Lemma copy_loop_prefix fuel (dst : Logged W) src written n err dst' src' :
  copy_loop fuel dst src written = (n, err, dst', src') →
  ∃ calls,
    delivered dst' = delivered dst ++ calls ∧
    concat calls `prefix_of` remaining src.
Proof.
  revert dst src written.
  induction fuel as [|fuel IH]; intros dst src written.
  { intros [= _ _ <- _]. exists []. rewrite app_nil_r. split; [done|].
    apply prefix_nil. }
  rewrite copy_loop_S.
  destruct (Read src copyBufferSize) as [[p er] src1] eqn:HR.
  apply Read_spec in HR as (Hrem & _).
  assert (Hstop : ∀ log : list (list byte),
            ∃ calls, log = log ++ calls ∧ concat calls `prefix_of` remaining src).
  { intros log. exists []. rewrite app_nil_r. split; [done|]. apply prefix_nil. }
  assert (Hone : ∀ log : list (list byte),
            ∃ calls, log ++ [p] = log ++ calls ∧
                     concat calls `prefix_of` remaining src).
  { intros log. exists [p]. split; [done|]. simpl. rewrite app_nil_r, Hrem.
    by apply prefix_app_r. }
  assert (Hmore : ∀ (d : Logged W) w0 (log : list (list byte)) (front : list byte),
            remaining src = front ++ remaining src1 →
            (∀ calls, delivered d ++ calls = log ++ (if decide (front = []) then [] else [front]) ++ calls) →
            copy_loop fuel d src1 w0 = (n, err, dst', src') →
            ∃ calls, delivered dst' = log ++ calls ∧
                     concat calls `prefix_of` remaining src).
  { intros d w0 log front Hfront Hlog HC.
    apply IH in HC as (calls & -> & Hpre).
    rewrite Hlog. eexists. split; [done|]. rewrite Hfront.
    case_decide as Hnil.
    - subst front. by simpl.
    - simpl. by apply prefix_app. }
  cbv zeta. case_decide as Hp.
  - destruct dst as [s log]. rewrite Write_Logged.
    destruct (Write s p) as [[nw ew] s1]. simpl delivered in *.
    assert (Hp' : p ≠ []) by (intros ->; unfold len in Hp; simpl in Hp; lia).
    case_decide.
    + intros [= _ _ <- _]. apply Hone.
    + destruct ew as [e|]; [intros [= _ _ <- _]; apply Hone|].
      case_decide; [intros [= _ _ <- _]; apply Hone|].
      destruct er as [e|]; [intros [= _ _ <- _]; apply Hone|].
      apply (Hmore _ _ log p Hrem). intros calls. simpl.
      rewrite decide_False by done. by rewrite <- app_assoc.
  - assert (p = []) as -> by (destruct p; [done|unfold len in Hp; simpl in Hp; lia]).
    destruct er as [e|]; [intros [= _ _ <- _]; apply Hstop|].
    apply (Hmore _ _ (delivered dst) [] Hrem). intros calls.
    by rewrite decide_True.
Qed.

End CopyPrefix.

Section DeliveredPrefix.
Context {S : Type} `{!io.Writer S}.
Implicit Types (w : tlsRecordFragWriter (io.Logged S)).

Lemma writer_Copy_prefix w source n err w' source' :
  writer_Copy w source = (n, err, w', source') →
  ∃ calls,
    io.delivered (writer w') = io.delivered (writer w) ++ calls ∧
    concat calls `prefix_of` io.remaining source.
Proof.
  unfold writer_Copy, io.Copy.
  destruct (io.copy_loop _ _ _ _) as [[[n1 e1] d1] s1] eqn:HC.
  apply copy_loop_prefix in HC. by intros [= _ _ <- _].
Qed.

(** X11. Whatever the sink and the source answer, pull mode hands the sink
    nothing but a beginning of the stream it is to write: of the source's
    bytes, or of their split when the record is eligible. Nothing is
    handed out of order, twice, or changed. *)
Theorem ReadFrom_delivers_a_prefix w source :
  let off := prefixBytes w in
  let input := io.remaining source in
  ∃ n err w' source' calls,
    ReadFrom w source = Ret (n, err, w', source') ∧
    io.delivered (writer w') = io.delivered (writer w) ++ calls ∧
    concat calls `prefix_of`
      (if decide (eligible off input) then split_record off input else input).
Proof.
  intros off input.
  assert (Hnothing : ∀ n err source' (stream : list byte) w0,
            writer w0 = writer w →
            ReadFrom w source = Ret (n, err, w0, source') →
            ∃ n err w' source' calls,
              ReadFrom w source = Ret (n, err, w', source') ∧
              io.delivered (writer w') = io.delivered (writer w) ++ calls ∧
              concat calls `prefix_of` stream).
  { intros n err src' stream w0 Hw0 HR. exists n, err, w0, src', [].
    rewrite Hw0, app_nil_r. split; [done|]. split; [done|]. apply prefix_nil. }
  destruct (decide (0 < off)) as [Harmed|Hdis].
  - destruct (decide (length input < 5)%nat) as [Hshort|Hhdr].
    { destruct (ReadFrom_header_short w source Harmed Hshort) as (e & src' & HR).
      eapply Hnothing; [|exact HR]; done. }
    destruct (decide (eligible off input)) as [Hel|Hne].
    + destruct (decide (5 + Z.to_nat (hdr_length input) ≤ length input)%nat)
        as [Hwhole|Hpart].
      * destruct (ReadFrom_split w source Hel Hwhole) as (src' & Hrem & _ & HR).
        fold off input in HR, Hrem.
        assert (Hstream : split_record off input
                          = fragments off input ++ io.remaining src').
        { rewrite Hrem. unfold fragments, split_record.
          by rewrite <- !app_assoc. }
        rewrite Hstream. rewrite writer_Write_Logged in HR.
        destruct (io.Write _ (fragments off input)) as [[tmp [e|]] s1].
        -- eexists _, _, _, _, [fragments off input].
           split; [exact HR|]. split; [done|]. simpl. rewrite app_nil_r.
           by apply prefix_app_r.
        -- cbv beta iota zeta in HR.
           destruct (writer_Copy _ src') as [[[n2 e2] w2] s2] eqn:HC.
           apply writer_Copy_prefix in HC as (calls & HC & Hpre).
           simpl in HC. eexists _, _, _, _, (fragments off input :: calls).
           split; [exact HR|]. rewrite HC, <- app_assoc. split; [done|].
           simpl. by apply prefix_app.
      * destruct (ReadFrom_payload_short w source Hel) as (e & src' & HR);
          [fold input; lia|].
        eapply Hnothing; [|exact HR]; done.
    + destruct (ReadFrom_dontFrag w source Harmed ltac:(fold input; lia) Hne)
        as (src' & Hrem & _ & HR). fold input in HR, Hrem.
      unfold dontFrag in HR. rewrite writer_Write_Logged in HR.
      destruct (io.Write _ (take 5 input)) as [[tmp [e|]] s1].
      -- eexists _, _, _, _, [take 5 input].
         split; [exact HR|]. split; [done|]. simpl. rewrite app_nil_r.
         exists (drop 5 input). by rewrite take_drop.
      -- destruct (writer_Copy _ src') as [[[n2 e2] w2] s2] eqn:HC.
         apply writer_Copy_prefix in HC as (calls & HC & Hpre).
         simpl in HC. eexists _, _, _, _, (take 5 input :: calls).
         split; [exact HR|]. rewrite HC, <- app_assoc. split; [done|].
         apply (prefix_app (take 5 input)) in Hpre.
         by rewrite Hrem, take_drop in Hpre.
  - rewrite ReadFrom_disarmed by lia.
    destruct (writer_Copy w source) as [[[n e] w'] src'] eqn:HC.
    apply writer_Copy_prefix in HC as (calls & Hlog & Hpre).
    exists n, e, w', src', calls. split; [done|]. split; [done|].
    rewrite decide_False; [done|]. unfold eligible. fold off. lia.
Qed.

End DeliveredPrefix.

(** ** The one fault of push mode *)

Section PushFaults.
Context {W : Type} `{!io.Writer W}.
Implicit Types (w : tlsRecordFragWriter W) (data : list byte).

(** X12. Push mode has no other fault: a [Write] that panics was given a
    handshake record of at most 16384 bytes whose length field is below
    the offset, in a buffer longer than the offset and the header. The
    empty buffer, a buffer shorter than a header, a record cut short and
    an oversized record never make it panic. *)
Theorem Write_panics_only_above_length w data reason :
  len data < 2 ^ 31 - 5 → - 2 ^ 31 ≤ prefixBytes w < 2 ^ 31 - 5 →
  Write w data = Panic reason →
  push_faults (prefixBytes w) data.
Proof.
  intros Hlen Hoff HW.
  destruct (decide (push_faults (prefixBytes w) data)) as [|Hnf]; [done|].
  exfalso. destruct (decide (push_splits (prefixBytes w) data)) as [Hs|Hns].
  - rewrite Write_split in HW by done. discriminate.
  - rewrite Write_passthrough in HW by (done || lia). discriminate.
Qed.

End PushFaults.

Lemma Write_panics_only_above_length_witness :
  push_faults 5 record4_and_more.
Proof.
  apply (Write_panics_only_above_length (fresh tt 5) record4_and_more
           SliceBounds); [by_decide|by_decide|].
  vm_compute. reflexivity.
Defined.

(** ** Prefixes: every byte sequence can be spelled *)

Section PrefixRoundTrip.
Import latin1.

#[local] Arguments decoderune : simpl never.

(** [decoderune] takes one to four bytes off a non-empty string. *)
Lemma decoderune_rest c s r rest :
  decoderune (c :: s) = (r, rest) →
  (length rest ≤ length s)%nat.
Proof.
  unfold decoderune.
  repeat (first [case_bool_decide | case_match]); intros [= _ <-];
    simplify_eq; simpl; try rewrite length_drop; lia.
Qed.

(** A rune of at most [0xFF] that is not a single byte took two. *)
Lemma decoderune_latin1 c s r rest :
  decoderune (c :: s) = (r, rest) → r ≤ 0xFF →
  ∃ c1, s = c1 :: rest.
Proof.
  unfold decoderune, runeError, maxRune, surrogateMin, surrogateMax.
  repeat (first [case_bool_decide | case_match]); intros [= <- <-] Hr;
    simplify_eq; try lia; eauto.
Qed.

(** More fuel than the string has bytes changes nothing. *)
Lemma range_runes_enough fuel s :
  (length s ≤ fuel)%nat → range_runes fuel s = runes_of s.
Proof.
  unfold runes_of. revert fuel.
  induction s as [s IH] using (induction_ltof1 _ (@length byte)).
  unfold ltof in IH. intros fuel Hf.
  destruct s as [|c s]; [by destruct fuel|].
  destruct fuel as [|fuel]; [simpl in Hf; lia|]. simpl in *.
  case_bool_decide.
  - f_equal. apply IH; lia.
  - destruct (decoderune (c :: s)) as [r rest] eqn:Hd.
    apply decoderune_rest in Hd. f_equal.
    rewrite (IH rest) by lia. symmetry. apply IH; lia.
Qed.

Lemma runes_of_cons c s :
  runes_of (c :: s) =
  if bool_decide (byte_val c < 0x80) then byte_val c :: runes_of s
  else let '(r, rest) := decoderune (c :: s) in r :: runes_of rest.
Proof.
  unfold runes_of at 1. simpl. case_bool_decide; [done|].
  destruct (decoderune (c :: s)) as [r rest] eqn:Hd.
  apply decoderune_rest in Hd. by rewrite range_runes_enough.
Qed.

Lemma runes_of_utf8_of_byte b rest :
  runes_of (utf8_of_byte b ++ rest) = byte_val b :: runes_of rest.
Proof.
  destruct (decide (byte_val b < 0x80)) as [Hlow|Hhigh].
  - unfold utf8_of_byte. rewrite bool_decide_eq_true_2 by done. simpl.
    by rewrite runes_of_cons, bool_decide_eq_true_2.
  - destruct b; try (exfalso; apply Hhigh; by vm_compute);
      match goal with |- context [utf8_of_byte ?b] =>
        let x := eval vm_compute in (utf8_of_byte b) in
        change (utf8_of_byte b) with x end;
      simpl app; rewrite runes_of_cons; reflexivity.
Qed.

Lemma runes_of_utf8_of_latin1 p :
  runes_of (utf8_of_latin1 p) = byte_val <$> p.
Proof.
  induction p as [|b p IH]; [done|].
  unfold utf8_of_latin1 in *. rewrite fmap_cons. simpl concat.
  by rewrite runes_of_utf8_of_byte, IH.
Qed.

Lemma byte_of_val b : byte_of (byte_val b) = b.
Proof.
  unfold byte_of. pose proof (byte_val_range b).
  rewrite Z.mod_small by done. unfold byte_val.
  by rewrite N2Z.id, Byte.of_to_N.
Qed.

(** X13. Every byte sequence can be given as a prefix: the string that
    spells the bytes as Latin-1 characters, in UTF-8, parses to these
    bytes; a string of bytes below [0x80] is its own prefix. *)
Theorem parseStringPrefix_round_trip (p : list byte) :
  parseStringPrefix (utf8_of_latin1 p) = Ok p ∧
  (Forall (λ b, byte_val b < 0x80) p → parseStringPrefix p = Ok p).
Proof.
  assert (Hparse : parseStringPrefix (utf8_of_latin1 p) = Ok p).
  { rewrite parseStringPrefix_ok; rewrite runes_of_utf8_of_latin1.
    - f_equal. rewrite <- list_fmap_compose.
      rewrite <- (list_fmap_id p) at 2. apply list_fmap_ext.
      intros i b _. apply byte_of_val.
    - apply Forall_fmap, Forall_forall. intros b _. simpl.
      pose proof (byte_val_range b). lia. }
  split; [done|]. intros Hascii.
  replace p with (utf8_of_latin1 p) at 1; [done|].
  clear Hparse. induction Hascii as [|b p Hb _ IH]; [done|].
  unfold utf8_of_latin1 in *. rewrite fmap_cons. simpl concat.
  unfold utf8_of_byte at 1. rewrite bool_decide_eq_true_2 by done.
  simpl. by rewrite IH.
Qed.

(** An accepted string is made of single bytes and of pairs. *)
Lemma range_runes_latin1_length fuel s :
  (length s ≤ fuel)%nat →
  Forall (λ r, r ≤ 0xFF) (range_runes fuel s) →
  (length s ≤ 2 * length (range_runes fuel s))%nat.
Proof.
  revert s. induction fuel as [|fuel IH]; intros [|c s] Hf Hall; simpl in *;
    try lia.
  case_bool_decide.
  - inversion_clear Hall as [|? ? Hr Hrest].
    specialize (IH s ltac:(lia) Hrest). simpl. lia.
  - destruct (decoderune (c :: s)) as [r rest] eqn:Hd.
    inversion_clear Hall as [|? ? Hr Hrest].
    destruct (decoderune_latin1 _ _ _ _ Hd Hr) as (c1 & ->).
    simpl in Hf. specialize (IH rest ltac:(lia) Hrest). simpl. lia.
Qed.

Lemma range_runes_length fuel s : (length (range_runes fuel s) ≤ fuel)%nat.
Proof.
  revert s. induction fuel as [|fuel IH]; intros [|c s]; simpl; try lia.
  case_bool_decide.
  - specialize (IH s). simpl. lia.
  - destruct (decoderune (c :: s)) as [r rest]. specialize (IH rest).
    simpl. lia.
Qed.

(** An accepted string has one or two bytes for each byte of the prefix. *)
Lemma parseStringPrefix_size (s : gostring) (p : list byte) :
  parseStringPrefix s = Ok p →
  (length p ≤ length s ≤ 2 * length p)%nat.
Proof.
  intros Hp.
  destruct (decide (Forall (λ r, r ≤ 0xFF) (runes_of s))) as [Hall|Hbad].
  - rewrite (parseStringPrefix_ok s Hall) in Hp. injection Hp as <-.
    rewrite length_fmap. unfold runes_of in *. split.
    + apply range_runes_length.
    + by apply range_runes_latin1_length.
  - destruct (parseStringPrefix_out_of_range s Hbad) as (r & Hr & _).
    congruence.
Qed.

(** X14. The prefix of an accepted string has at most as many bytes as the
    string and at least half as many. *)
Theorem parseStringPrefix_length (s : gostring) (p : list byte) :
  parseStringPrefix s = Ok p →
  (length p ≤ length s ≤ 2 * length p)%nat.
Proof. apply parseStringPrefix_size. Qed.

End PrefixRoundTrip.

Lemma parseStringPrefix_round_trip_witness :
  parseStringPrefix (latin1.utf8_of_latin1 [xe9; x41; xff])
    = Ok [xe9; x41; xff] ∧
  parseStringPrefix [x41; x42] = Ok [x41; x42].
Proof.
  split.
  - apply (parseStringPrefix_round_trip [xe9; x41; xff]).
  - apply (parseStringPrefix_round_trip [x41; x42]). by_decide.
Defined.

Lemma parseStringPrefix_length_witness :
  (length [xe9; x41; xff] ≤ length [xc3; xa9; x41; xc3; xbf]
   ≤ 2 * length [xe9; x41; xff])%nat.
Proof.
  apply (parseStringPrefix_length [xc3; xa9; x41; xc3; xbf] [xe9; x41; xff]).
  vm_compute. reflexivity.
Defined.


(** ** The configuration and the dialers made from it *)

Section ParsedConfig.
Context {Key : Type}.
Variable NewEncryptionKey : gostring → gostring → option Key.
Variable DecodeString : gostring → option (list byte).

#[local] Abbreviation parseURL :=
  (parseShadowsocksURL NewEncryptionKey DecodeString).

(** [strings.Cut] cuts at the first separator. *)
Lemma Cut_found s sep before after :
  Cut s sep = (before, after, true) →
  s = before ++ (sep :: after) ∧ (sep ∉ before).
Proof.
  revert before. induction s as [|c s IH]; intros before; simpl; [done|].
  case_decide as Hc.
  - intros [= <- <-]. subst c. split; [done|]. apply not_elem_of_nil.
  - destruct (Cut s sep) as [[b a] f]. intros [= <- <- ->].
    destruct (IH b eq_refl) as (-> & Hnot). split; [done|].
    rewrite not_elem_of_cons. by split; [congruence|].
Qed.

(** What a parsed configuration holds. *)
Lemma parseShadowsocksURL_ok (url : URL) cfg :
  parseURL url = Ok cfg →
  serverAddress cfg = Host url ∧ Host url ≠ [] ∧
  (∃ info name secret key,
     DecodeString (User url) = Some info ∧
     info = name ++ (x3a :: secret) ∧ (x3a ∉ name) ∧
     NewEncryptionKey name secret = Some key ∧
     cryptoKey cfg = Some key) ∧
  (Query_prefix url = [] → prefix cfg = []) ∧
  (Query_prefix url ≠ [] →
   parseStringPrefix (Query_prefix url) = Ok (prefix cfg) ∧ prefix cfg ≠ []).
Proof.
  unfold parseShadowsocksURL. case_decide as Hhost; [done|].
  destruct (DecodeString (User url)) as [info|] eqn:Hdec; [|done].
  destruct (Cut info x3a) as [[name secret] found] eqn:Hcut.
  destruct found; simpl; [|done].
  destruct (NewEncryptionKey name secret) as [key|] eqn:Hkey; [|done].
  apply Cut_found in Hcut as (Hinfo & Hname).
  case_decide as Hprefix.
  - destruct (parseStringPrefix (Query_prefix url)) as [p|e] eqn:Hp; [|done].
    intros [= <-]. simpl.
    split; [done|]. split; [done|]. split; [by exists info, name, secret, key|]. split.
    + intros Hnil. rewrite Hnil in Hprefix. unfold len in Hprefix.
      simpl in Hprefix. lia.
    + intros _. split; [done|]. intros ->.
      apply parseStringPrefix_size in Hp.
      unfold len in Hprefix. simpl in Hp. lia.
  - intros [= <-]. simpl.
    split; [done|]. split; [done|]. split; [by exists info, name, secret, key|].
    assert (Query_prefix url = []) as ->; [|by split].
    destruct (Query_prefix url); [done|].
    unfold len in Hprefix. simpl in Hprefix. lia.
Qed.

(** X15. A URL that parses gives a whole configuration: the server address
    is the host, which is not empty; the key is made from the decoded user
    info cut at its first colon, so the cipher name has no colon and the
    secret is all that follows, colons included; the prefix is empty when
    the URL has none and the parsed prefix string otherwise. *)
Theorem parseShadowsocksURL_config (url : URL) cfg :
  parseURL url = Ok cfg →
  serverAddress cfg = Host url ∧ Host url ≠ [] ∧
  (∃ info name secret key,
     DecodeString (User url) = Some info ∧
     info = name ++ (x3a :: secret) ∧ (x3a ∉ name) ∧
     NewEncryptionKey name secret = Some key ∧
     cryptoKey cfg = Some key) ∧
  (Query_prefix url = [] → prefix cfg = []) ∧
  (Query_prefix url ≠ [] →
   parseStringPrefix (Query_prefix url) = Ok (prefix cfg) ∧ prefix cfg ≠ []).
Proof. apply parseShadowsocksURL_ok. Qed.

End ParsedConfig.

Lemma parseShadowsocksURL_config_witness :
  let cfg := mkConfig [x68] (Some tt) [xe9; x41; xff] in
  serverAddress cfg = Host prefix_url ∧ Host prefix_url ≠ [] ∧
  (∃ info name secret key,
     no_decoding (User prefix_url) = Some info ∧
     info = name ++ (x3a :: secret) ∧ (x3a ∉ name) ∧
     any_key name secret = Some key ∧
     cryptoKey cfg = Some key) ∧
  (Query_prefix prefix_url = [] → prefix cfg = []) ∧
  (Query_prefix prefix_url ≠ [] →
   parseStringPrefix (Query_prefix prefix_url) = Ok (prefix cfg) ∧
   prefix cfg ≠ []).
Proof.
  apply (parseShadowsocksURL_config any_key no_decoding prefix_url
           (mkConfig [x68] (Some tt) [xe9; x41; xff])).
  vm_compute. reflexivity.
Defined.


Section Dialers.
Import dialers.
Context {EncryptionKey StreamDialer PacketListener SaltGenerator E : Type}.
Context {InnerStream InnerPacket : Type}.
Variable NewEncryptionKey : gostring → gostring → option EncryptionKey.
Variable DecodeString : gostring → option (list byte).
Variable NewStreamDialer :
  Endpoint InnerStream → option EncryptionKey → StreamDialer + E.
Variable NewPacketListener :
  Endpoint InnerPacket → option EncryptionKey → PacketListener + E.
Variable NewPrefixSaltGenerator : list byte → SaltGenerator.
Variable set_SaltGenerator : StreamDialer → SaltGenerator → StreamDialer.

#[local] Abbreviation parseURL' :=
  (parseShadowsocksURL NewEncryptionKey DecodeString).
#[local] Abbreviation streamDialer :=
  (newShadowsocksStreamDialerFromURL NewEncryptionKey DecodeString
     NewStreamDialer NewPrefixSaltGenerator set_SaltGenerator).
#[local] Abbreviation packetDialer :=
  (newShadowsocksPacketDialerFromURL NewEncryptionKey DecodeString
     NewPacketListener).

(** X16. The stream dialer of a URL that parses is the dialer package
    shadowsocks makes for the inner dialer, the host and the key; its salt
    generator is replaced, by the prefix salt generator of the parsed
    prefix, exactly when the URL has a prefix parameter that is not empty.
    An error of the parser or of the constructor is returned as it is. *)
Theorem stream_dialer_prefix (inner : InnerStream) (url : URL) :
  match parseURL' url with
  | Failed e => streamDialer inner url = inr (ParseError e)
  | Ok cfg =>
    match NewStreamDialer (mkEndpoint inner (Host url)) (cryptoKey cfg) with
    | inr e => streamDialer inner url = inr (ShadowsocksError e)
    | inl dialer =>
      streamDialer inner url =
      inl (if decide (Query_prefix url = []) then dialer
           else set_SaltGenerator dialer
                  (NewPrefixSaltGenerator (byte_of <$> runes_of (Query_prefix url))))
    end
  end.
Proof.
  unfold newShadowsocksStreamDialerFromURL.
  destruct (parseURL' url) as [cfg|e] eqn:Hparse; [|done].
  destruct (parseShadowsocksURL_ok _ _ url cfg Hparse)
    as (-> & _ & _ & Hnone & Hsome).
  destruct (NewStreamDialer _ _) as [dialer|e]; [|done].
  f_equal. destruct (decide (Query_prefix url = [])) as [Hnil|Hnil].
  - rewrite (Hnone Hnil). by rewrite decide_False.
  - destruct (Hsome Hnil) as (Hp & Hne).
    rewrite decide_True
      by (destruct (prefix cfg); [done|unfold len; simpl; lia]).
    do 2 f_equal.
    destruct (decide (Forall (λ r, r ≤ 0xFF) (runes_of (Query_prefix url))))
      as [Hall|Hbad].
    + rewrite (parseStringPrefix_ok _ Hall) in Hp. by injection Hp.
    + destruct (parseStringPrefix_out_of_range _ Hbad) as (r & Hr & _).
      congruence.
Qed.

(** X17. The packet dialer does not use the prefix, but it does parse it:
    for a URL that parses, the dialer is the one made for the inner dialer,
    the host and the key, whatever the prefix; and a prefix with a rune
    above [0xFF] fails the packet dialer as it fails the stream dialer. *)
Theorem packet_dialer_prefix (inner : InnerPacket) (url : URL) :
  (∀ cfg, parseURL' url = Ok cfg →
     packetDialer inner url =
     match NewPacketListener (mkEndpoint inner (Host url)) (cryptoKey cfg) with
     | inl listener => inl (mkPacketListenerDialer listener)
     | inr e => inr (ShadowsocksError e)
     end) ∧
  (¬ Forall (λ r, r ≤ 0xFF) (runes_of (Query_prefix url)) →
   ∃ e, packetDialer inner url = inr (ParseError e)).
Proof.
  unfold newShadowsocksPacketDialerFromURL. split.
  - intros cfg Hparse. rewrite Hparse.
    destruct (parseShadowsocksURL_ok _ _ url cfg Hparse) as (-> & _).
    by destruct (NewPacketListener _ _).
  - intros Hbad.
    destruct (parseStringPrefix_out_of_range _ Hbad) as (r & Hr & Hin & _).
    destruct (parseShadowsocksURL_bad_prefix NewEncryptionKey DecodeString
                url (CharacterOutOfRange r)) as (e & ->); [|done|by eexists].
    intros Hnil. rewrite Hnil in Hin. by apply elem_of_nil in Hin.
Qed.

End Dialers.

Lemma packet_dialer_prefix_witness :
  dialers.newShadowsocksPacketDialerFromURL any_key no_decoding listener_at
    tt prefix_url
    = inl (dialers.mkPacketListenerDialer [x68]) ∧
  ∃ e, dialers.newShadowsocksPacketDialerFromURL any_key no_decoding
         listener_at tt wide_url
       = inr (dialers.ParseError e).
Proof.
  split.
  - destruct (packet_dialer_prefix any_key no_decoding listener_at tt
                prefix_url) as (Hok & _).
    apply (Hok (mkConfig [x68] (Some tt) [xe9; x41; xff])).
    vm_compute. reflexivity.
  - destruct (packet_dialer_prefix any_key no_decoding listener_at tt
                wide_url) as (_ & Hbad).
    apply Hbad. by_decide.
Defined.

(** ** The error record of outline-connectivity *)

Section ErrorRecord.
Import outline_connectivity.
Implicit Types err : goerror.

(** One turn of the loop of [unwrapAll]. *)
Lemma unwrapAll_Unwrap err :
  unwrapAll err =
  match Unwrap err with
  | None => err
  | Some unwrapped => unwrapAll unwrapped
  end.
Proof. by destruct err. Qed.

Lemma unwrapAll_in_chain err : unwrapAll err ∈ chain err.
Proof.
  induction err as [msg test|msg test inner IH]; simpl.
  - apply list_elem_of_here.
  - by apply list_elem_of_further.
Qed.

Lemma unwrapAll_chain err e : e ∈ chain err → unwrapAll e = unwrapAll err.
Proof.
  induction err as [msg test|msg test inner IH]; simpl.
  - by intros ->%list_elem_of_singleton.
  - intros [->|Hin]%elem_of_cons; [done|by apply IH].
Qed.

(** X18. [unwrapAll] gives the innermost error of the chain: an error of
    the chain that wraps nothing; it is the same for every error of the
    chain, and unwrapping it again changes nothing. *)
Theorem unwrapAll_innermost err :
  unwrapAll err ∈ chain err ∧
  Unwrap (unwrapAll err) = None ∧
  unwrapAll (unwrapAll err) = unwrapAll err ∧
  (∀ e, e ∈ chain err → unwrapAll e = unwrapAll err).
Proof.
  split; [apply unwrapAll_in_chain|]. split; [by induction err|].
  split; [|apply unwrapAll_chain].
  apply unwrapAll_chain, unwrapAll_in_chain.
Qed.



End ErrorRecord.

Lemma unwrapAll_innermost_witness :
  let inner := outline_connectivity.Plain [x63] None in
  outline_connectivity.unwrapAll dial_error = inner ∧
  outline_connectivity.unwrapAll
    (outline_connectivity.Wrapping [x62] (Some ([x6f], [x70])) inner)
    = outline_connectivity.unwrapAll dial_error.
Proof.
  split; [reflexivity|].
  destruct (unwrapAll_innermost dial_error) as (_ & _ & _ & Hsame).
  apply Hsame. apply list_elem_of_further, list_elem_of_here.
Defined.

